(** * Collision detection and cloud scrolling of the Dino runner

    A shallow embedding of the utility module (collision boxes,
    [boxCompare], [createAdjustedCollisionBox], [drawCollisionBoxes],
    [checkForCollision], [getRandomNum], [decodeBase64ToArrayBuffer]) and
    of [Cloud.js], together with the properties the specification states
    about them and further properties read off the code.

    Numbers.  JavaScript numbers are IEEE doubles.  Every coordinate that
    reaches the code below is a pixel count (canvas widths, sprite sizes,
    positions moved by rounded amounts), far inside the range where double
    arithmetic on integers is exact, so coordinates are embedded as [Z].
    The scroll speed handed to [Cloud.update] and the value produced by
    [Math.random] are fractional doubles; they are embedded as the
    rationals [Q] they denote, with [Math.ceil] as [Qceiling] and
    [Math.floor] as [Qfloor].  Where the code multiplies fractional
    doubles the product is rounded to the nearest double, as the machine
    does ([Double.round]).

    Effects.  The code draws on a canvas context and calls [boxCompare]
    repeatedly.  Both are recorded in a trace carried by a writer monad, so
    that "which boxes were tested" and "what was drawn" are observable.

    Exceptions.  Cloud.js uses two names of the utility module without
    importing them.  A call that evaluates one of them throws a
    [ReferenceError]; the methods of a cloud therefore yield, besides the
    cloud as the call leaves it, whether the call returned or threw. *)

From Stdlib Require Import ZArith QArith Qround Qpower List Bool String.
From Stdlib Require Import Lia Lqa.
Import ListNotations.

Local Open Scope Z_scope.

(** ** Collision boxes *)

Module CollisionBox.

(** Modelled from the spec: the class [CollisionBox] lives in
    offline-sprite-definitions.js, which is not part of the sources; the
    specification gives it as the record {x, y, width, height}, and
    [new CollisionBox(x, y, w, h)] fills the four fields in that order. *)
Record t : Type := new { x : Z; y : Z; width : Z; height : Z }.

End CollisionBox.

(** ** The trace of observable actions *)

(** Calls received by a [CanvasRenderingContext2D]. *)
Inductive CanvasCall : Type :=
| save
| restore
| set_strokeStyle (style : string)
| strokeRect (x y w h : Z)
| drawImage (sx sy sWidth sHeight dx dy dWidth dHeight : Z).

Inductive Event : Type :=
| OnCanvas (call : CanvasCall)
| Compared (tRexBox obstacleBox : CollisionBox.t).

(** A computation that yields a value and the events it caused, in order. *)
Definition Traced (A : Type) : Type := (A * list Event)%type.

Definition ret {A : Type} (a : A) : Traced A := (a, []).

Definition bind {A B : Type} (m : Traced A) (k : A -> Traced B) : Traced B :=
  let (a, t1) := m in
  let (b, t2) := k a in
  (b, t1 ++ t2).

Definition emit (e : Event) : Traced unit := (tt, [e]).

Definition result {A : Type} (m : Traced A) : A := fst m.
Definition trace {A : Type} (m : Traced A) : list Event := snd m.

(** How a call ends: it returns a value, or it throws. *)
Inductive JsError : Type :=
| ReferenceError (name : string).

Inductive Completion (A : Type) : Type :=
| Normal (a : A)
| Throw (e : JsError).

Arguments Normal {A} a.
Arguments Throw {A} e.

Declare Scope traced_scope.
Delimit Scope traced_scope with traced.
Notation "x <- m ;; k" := (bind m (fun x => k))
  (at level 61, m at next level, right associativity) : traced_scope.
Notation "m ;; k" := (bind m (fun _ => k))
  (at level 61, right associativity) : traced_scope.

(** The boxes handed to [boxCompare], in call order. *)
Fixpoint comparisons (tr : list Event) : list (CollisionBox.t * CollisionBox.t) :=
  match tr with
  | [] => []
  | Compared a b :: tr' => (a, b) :: comparisons tr'
  | OnCanvas _ :: tr' => comparisons tr'
  end.

(** A [for] loop over an array whose body may [return]: the body is run on
    the elements by increasing index, and the first [Some] it yields ends
    the loop with that value. *)
Fixpoint forEachUntil {A B : Type} (arr : list A)
    (body : A -> Traced (option B)) : Traced (option B) :=
  match arr with
  | [] => ret None
  | a :: rest =>
      (r <- body a ;;
       match r with
       | Some b => ret (Some b)
       | None => forEachUntil rest body
       end)%traced
  end.

(** A counting loop [for (let i = 0; i < len; i++) body] over a state:
    [i] runs through 0, 1, 2, ... for as long as [i < len], that is, through
    the naturals below the ceiling of [len]. *)
Definition forUpTo {S : Type} (len : Q) (body : nat -> S -> S) (s : S) : S :=
  fold_left (fun s i => body i s) (seq 0 (Z.to_nat (Qceiling len))) s.

(** ** Byte arrays *)

Module Uint8Array.

(** The elements of a [Uint8Array], each in 0..255. *)
Definition t : Type := list Z.

(** [new Uint8Array(new ArrayBuffer(len))]: the buffer length is [len]
    truncated to an integer, and the buffer is zero-filled. *)
Definition ofNewArrayBuffer (len : Q) : t :=
  repeat 0 (Z.to_nat (Qfloor len)).

(** Conversion of a stored number to an element: [None] stands for [NaN],
    which is stored as 0; an integer is reduced modulo 256. *)
Definition ToUint8 (v : option Z) : Z :=
  match v with
  | Some n => n mod 256
  | None => 0
  end.

(** [bytes[i] = v]: a store beyond the end of the array is ignored. *)
Fixpoint set (bytes : t) (i : nat) (v : option Z) : t :=
  match bytes, i with
  | [], _ => []
  | _ :: rest, O => ToUint8 v :: rest
  | b :: rest, S j => b :: set rest j v
  end.

End Uint8Array.

(** [str.charCodeAt(i)] on a string of 8-bit characters: the code of the
    character at index [i], or [NaN] ([None]) past the end. *)
Definition charCodeAt (str : string) (i : nat) : option Z :=
  match String.get i str with
  | Some c => Some (Z.of_N (Ascii.N_of_ascii c))
  | None => None
  end.

(** ** The entities seen by the collision detector *)

Module Trex.

Record config_t : Type := { WIDTH : Z; HEIGHT : Z }.

(** The fields of a T-rex that [checkForCollision] reads. *)
Record t : Type := { xPos : Z; yPos : Z; config : config_t; ducking : bool }.

(** The static table [Trex.collisionBoxes] (Trex.js is not part of the
    sources, so the table is a parameter of the detector). *)
Record collisionBoxes_t : Type :=
  { DUCKING : list CollisionBox.t; RUNNING : list CollisionBox.t }.

End Trex.

Module Obstacle.

Record typeConfig_t : Type := { width : Z; height : Z }.

(** The fields of an obstacle that [checkForCollision] reads. *)
Record t : Type :=
  { xPos : Z; yPos : Z; typeConfig : typeConfig_t; size : Z;
    collisionBoxes : list CollisionBox.t }.

End Obstacle.

Module Runner.

(** The statics of [Runner] that [checkForCollision] reads (Runner.js is
    not part of the sources, so they are parameters of the detector). *)
Record t : Type :=
  { defaultDimensions_WIDTH : Z;
    isAltGameModeEnabled : bool;
    spriteDefinition_TREX_COLLISION_BOXES : list CollisionBox.t }.

End Runner.

(** ** Doubles

    A finite double is a rational number m * 2^q with |m| < 2^53 and
    q >= -1074.  The result of an arithmetic operation is the exact result
    rounded to the nearest such number, ties going to the one with an
    even m.  Results beyond the largest double (overflow to Infinity) are
    outside this model. *)

Module Double.

Definition pow2 (e : Z) : Q := Qpower 2 e.

(** The integer [e] with 2^e <= x < 2^(e+1), for a positive [x]. *)
Definition ilog2 (x : Q) : Z :=
  let e0 := Z.log2 (Qnum x) - Z.log2 (Zpos (Qden x)) in
  if Qle_bool (pow2 e0) x then e0 else e0 - 1.

(** The nearest integer, ties to even. *)
Definition nearestEven (m : Q) : Z :=
  let f := Qfloor m in
  match (m - inject_Z f ?= 1 # 2)%Q with
  | Lt => f
  | Gt => f + 1
  | Eq => if Z.even f then f else f + 1
  end.

(** The exponent of the unit in the last place at a positive [x]: 53
    significant bits, and no exponent below that of the subnormal
    numbers. *)
Definition ulpExponent (x : Q) : Z := Z.max (ilog2 x) (-1022) - 52.

Definition roundPositive (x : Q) : Q :=
  (inject_Z (nearestEven (x / pow2 (ulpExponent x))) *
   pow2 (ulpExponent x))%Q.

(** Round to nearest, ties to even. *)
Definition round (x : Q) : Q :=
  match (x ?= 0)%Q with
  | Eq => 0%Q
  | Gt => roundPositive x
  | Lt => (- roundPositive (- x))%Q
  end.

End Double.

(** ** The utility module *)

Module Utils.

Import CollisionBox.

(** [Math.floor(Math.random() * (max - min + 1)) + min], where [random]
    is the double [Math.random()] returned for this call.  The product is
    a double operation, hence rounded; [min] and [max] are integers, and
    within 2^52 of zero the integer operations on them are exact. *)
Definition getRandomNum (random : Q) (min max : Z) : Z :=
  Qfloor (Double.round (random * inject_Z (max - min + 1))) + min.

Section DecodeBase64.

(** The browser's [atob]: the decoded binary string, or [None] when it
    throws on a malformed input. *)
Variable atob : string -> option string.

(** [None] is the exception of [atob] passing through. *)
Definition decodeBase64ToArrayBuffer (base64String : string)
  : option Uint8Array.t :=
  let len :=
    (inject_Z (Z.of_nat (String.length base64String)) / 4 * 3)%Q in
  match atob base64String with
  | None => None
  | Some str =>
      let bytes := Uint8Array.ofNewArrayBuffer len in
      let bytes :=
        forUpTo len
          (fun i bytes => Uint8Array.set bytes i (charCodeAt str i)) bytes in
      Some bytes
  end.

End DecodeBase64.

Definition createAdjustedCollisionBox (box adjustment : CollisionBox.t)
  : CollisionBox.t :=
  CollisionBox.new
    (x box + x adjustment)
    (y box + y adjustment)
    (width box)
    (height box).

Definition drawCollisionBoxes (tRexBox obstacleBox : CollisionBox.t)
  : Traced unit :=
  (emit (OnCanvas save) ;;
   emit (OnCanvas (set_strokeStyle "#f00")) ;;
   emit (OnCanvas (strokeRect (x tRexBox) (y tRexBox)
                              (width tRexBox) (height tRexBox))) ;;
   emit (OnCanvas (set_strokeStyle "#0f0")) ;;
   emit (OnCanvas (strokeRect (x obstacleBox) (y obstacleBox)
                              (width obstacleBox) (height obstacleBox))) ;;
   emit (OnCanvas restore))%traced.

Definition boxCompare (tRexBox obstacleBox : CollisionBox.t) : bool :=
  let crashed := false in
  let tRexBoxX := x tRexBox in
  let tRexBoxY := y tRexBox in
  let obstacleBoxX := x obstacleBox in
  let obstacleBoxY := y obstacleBox in
  if (x tRexBox <? obstacleBoxX + width obstacleBox) &&
     (x tRexBox + width tRexBox >? obstacleBoxX) &&
     (y tRexBox <? y obstacleBox + height obstacleBox) &&
     (height tRexBox + y tRexBox >? y obstacleBox)
  then true
  else crashed.

(** A call of [boxCompare] from the detector, recorded in the trace. *)
Definition call_boxCompare (tRexBox obstacleBox : CollisionBox.t)
  : Traced bool :=
  (emit (Compared tRexBox obstacleBox) ;;
   ret (boxCompare tRexBox obstacleBox))%traced.

Section CheckForCollision.

Variable R : Runner.t.
Variable Trex_collisionBoxes : Trex.collisionBoxes_t.

(** [opt_canvasCtx] tells whether the optional canvas context was
    passed; the calls made on it go to the trace.  A [None] result is
    the [undefined] of a call that falls off the end of the function. *)
Definition checkForCollision (obstacle : Obstacle.t) (tRex : Trex.t)
    (opt_canvasCtx : bool)
  : Traced (option (CollisionBox.t * CollisionBox.t)) :=
  let obstacleBoxXPos :=
    Runner.defaultDimensions_WIDTH R + Obstacle.xPos obstacle in
  let tRexBox := CollisionBox.new
    (Trex.xPos tRex + 1)
    (Trex.yPos tRex + 1)
    (Trex.WIDTH (Trex.config tRex) - 2)
    (Trex.HEIGHT (Trex.config tRex) - 2) in
  let obstacleBox := CollisionBox.new
    (Obstacle.xPos obstacle + 1)
    (Obstacle.yPos obstacle + 1)
    (Obstacle.width (Obstacle.typeConfig obstacle) * Obstacle.size obstacle - 2)
    (Obstacle.height (Obstacle.typeConfig obstacle) - 2) in
  ((if opt_canvasCtx then drawCollisionBoxes tRexBox obstacleBox
    else ret tt) ;;
   outer <- call_boxCompare tRexBox obstacleBox ;;
   if outer then
     let collisionBoxes := Obstacle.collisionBoxes obstacle in
     let tRexCollisionBoxes :=
       if Runner.isAltGameModeEnabled R
       then Runner.spriteDefinition_TREX_COLLISION_BOXES R
       else if Trex.ducking tRex
            then Trex.DUCKING Trex_collisionBoxes
            else Trex.RUNNING Trex_collisionBoxes in
     forEachUntil tRexCollisionBoxes (fun tRexCollisionBox =>
       forEachUntil collisionBoxes (fun collisionBox =>
         let adjTrexBox :=
           createAdjustedCollisionBox tRexCollisionBox tRexBox in
         let adjObstacleBox :=
           createAdjustedCollisionBox collisionBox obstacleBox in
         crashed <- call_boxCompare adjTrexBox adjObstacleBox ;;
         (if opt_canvasCtx
          then drawCollisionBoxes adjTrexBox adjObstacleBox
          else ret tt) ;;
         if crashed
         then ret (Some (adjTrexBox, adjObstacleBox))
         else ret None))
   else ret None)%traced.

End CheckForCollision.

End Utils.

(** ** Cloud.js *)

Module Cloud.

(** [Cloud.config]. *)
Module config.
Definition HEIGHT : Z := 14.
Definition MAX_CLOUD_GAP : Z := 400.
Definition MAX_SKY_LEVEL : Z := 30.
Definition MIN_CLOUD_GAP : Z := 100.
Definition MIN_SKY_LEVEL : Z := 71.
Definition WIDTH : Z := 46.
End config.

(** Position of the cloud image in the sprite sheet. *)
Record spritePos_t : Type := { x : Z; y : Z }.

(** The fields of a cloud.  [canvas] and [canvasCtx] are handles on the
    drawing surface; what is done to that surface is in the trace. *)
Record t : Type :=
  { spritePos : spritePos_t;
    containerWidth : Z;
    xPos : Z;
    yPos : Z;
    remove : bool;
    gap : Z }.

Definition set_xPos (v : Z) (this : t) : t :=
  {| spritePos := spritePos this; containerWidth := containerWidth this;
     xPos := v; yPos := yPos this; remove := remove this; gap := gap this |}.

Definition set_yPos (v : Z) (this : t) : t :=
  {| spritePos := spritePos this; containerWidth := containerWidth this;
     xPos := xPos this; yPos := v; remove := remove this; gap := gap this |}.

Definition set_remove (v : bool) (this : t) : t :=
  {| spritePos := spritePos this; containerWidth := containerWidth this;
     xPos := xPos this; yPos := yPos this; remove := v; gap := gap this |}.

(** Names that Cloud.js uses but does not bind.  The first line of the
    file, [import './Utils.js'], runs the utility module without binding
    any of its exports, and no declaration of the file introduces
    [IS_HIDPI] or [getRandomNum]; module code is strict, so evaluating
    either identifier throws a [ReferenceError]. *)
Definition IS_HIDPI : Completion bool :=
  Throw (ReferenceError "IS_HIDPI").

Definition getRandomNum : Completion (Z -> Z -> Z) :=
  Throw (ReferenceError "getRandomNum").

(** A method is given the object and yields the object as the call leaves
    it, together with how the call ended: what a method has assigned to
    [this] before it throws stays assigned. *)

Definition draw (this : t) : Traced (Completion unit) :=
  (emit (OnCanvas save) ;;
   let sourceWidth := config.WIDTH in
   let sourceHeight := config.HEIGHT in
   let outputWidth := sourceWidth in
   let outputHeight := sourceHeight in
   match IS_HIDPI with
   | Throw e => ret (Throw e)
   | Normal hidpi =>
       let sourceWidth := if hidpi then sourceWidth * 2 else sourceWidth in
       let sourceHeight := if hidpi then sourceHeight * 2 else sourceHeight in
       emit (OnCanvas (drawImage (x (spritePos this)) (y (spritePos this))
                                 sourceWidth sourceHeight
                                 (xPos this) (yPos this)
                                 outputWidth outputHeight)) ;;
       emit (OnCanvas restore) ;;
       ret (Normal tt)
   end)%traced.

Definition init (this : t) : Traced (t * Completion unit) :=
  match getRandomNum with
  | Throw e => ret (this, Throw e)
  | Normal getRandomNum =>
      let this :=
        set_yPos (getRandomNum config.MAX_SKY_LEVEL config.MIN_SKY_LEVEL)
                 this in
      (drawn <- draw this ;; ret (this, drawn))%traced
  end.

(** [new Cloud(canvas, spritePos, containerWidth)]: the new object, unless
    the constructor throws. *)
Definition constructor (spritePos : spritePos_t) (containerWidth : Z)
  : Traced (Completion t) :=
  match getRandomNum with
  | Throw e => ret (Throw e)
  | Normal getRandomNum =>
      let this :=
        {| spritePos := spritePos;
           containerWidth := containerWidth;
           xPos := containerWidth;
           yPos := 0;
           remove := false;
           gap := getRandomNum config.MIN_CLOUD_GAP config.MAX_CLOUD_GAP |} in
      (r <- init this ;;
       match snd r with
       | Throw e => ret (Throw e)
       | Normal _ => ret (Normal (fst r))
       end)%traced
  end.

Definition isVisible (this : t) : bool :=
  xPos this + config.WIDTH >? 0.

Definition update (speed : Q) (this : t) : Traced (t * Completion unit) :=
  if negb (remove this) then
    let this := set_xPos (xPos this - Qceiling speed) this in
    (drawn <- draw this ;;
     match drawn with
     | Throw e => ret (this, Throw e)
     | Normal _ =>
         if negb (isVisible this)
         then ret (set_remove true this, Normal tt)
         else ret (this, Normal tt)
     end)%traced
  else ret (this, Normal tt).

(** A cloud's lifetime after construction: one [update] per frame, with
    that frame's speed, until a call throws. *)
Fixpoint updates (speeds : list Q) (this : t)
  : Traced (t * Completion unit) :=
  match speeds with
  | [] => ret (this, Normal tt)
  | speed :: later =>
      (r <- update speed this ;;
       match snd r with
       | Throw e => ret (fst r, Throw e)
       | Normal _ => updates later (fst r)
       end)%traced
  end.

End Cloud.

(** ** The words of the specification *)

Module Spec.

Import CollisionBox.

(** The coarse box of the player: the sprite inset by 1 on each side. *)
Definition coarsePlayerBox (tRex : Trex.t) : CollisionBox.t :=
  CollisionBox.new (Trex.xPos tRex + 1) (Trex.yPos tRex + 1)
    (Trex.WIDTH (Trex.config tRex) - 2) (Trex.HEIGHT (Trex.config tRex) - 2).

(** The coarse box of the obstacle: the sprite, [size] copies wide, inset
    by 1 on each side. *)
Definition coarseObstacleBox (obstacle : Obstacle.t) : CollisionBox.t :=
  CollisionBox.new (Obstacle.xPos obstacle + 1) (Obstacle.yPos obstacle + 1)
    (Obstacle.width (Obstacle.typeConfig obstacle) * Obstacle.size obstacle - 2)
    (Obstacle.height (Obstacle.typeConfig obstacle) - 2).

(** A sub-box moved by its parent's origin; width and height are kept. *)
Definition translate (box parent : CollisionBox.t) : CollisionBox.t :=
  CollisionBox.new (x box + x parent) (y box + y parent)
    (width box) (height box).

(** The sub-boxes of the player in its current state. *)
Definition playerSubBoxes (R : Runner.t) (tbl : Trex.collisionBoxes_t)
    (tRex : Trex.t) : list CollisionBox.t :=
  if Runner.isAltGameModeEnabled R
  then Runner.spriteDefinition_TREX_COLLISION_BOXES R
  else if Trex.ducking tRex then Trex.DUCKING tbl else Trex.RUNNING tbl.

(** All pairs (player sub-box, obstacle sub-box), translated, player
    sub-boxes outermost. *)
Definition translatedPairs (R : Runner.t) (tbl : Trex.collisionBoxes_t)
    (obstacle : Obstacle.t) (tRex : Trex.t)
  : list (CollisionBox.t * CollisionBox.t) :=
  flat_map (fun p =>
    map (fun o => (translate p (coarsePlayerBox tRex),
                   translate o (coarseObstacleBox obstacle)))
        (Obstacle.collisionBoxes obstacle))
    (playerSubBoxes R tbl tRex).

Definition overlapping (pair : CollisionBox.t * CollisionBox.t) : bool :=
  Utils.boxCompare (fst pair) (snd pair).

(** The pairs that are tested when the search stops at the first
    overlapping one: everything up to and including it. *)
Fixpoint upToFirst {A : Type} (p : A -> bool) (l : list A) : list A :=
  match l with
  | [] => []
  | a :: l' => if p a then [a] else a :: upToFirst p l'
  end.

End Spec.

(** ** What a trace shows *)

Module Observe.

Import CollisionBox.

(** The calls made on the canvas context, in call order. *)
Fixpoint canvasCalls (tr : list Event) : list CanvasCall :=
  match tr with
  | [] => []
  | OnCanvas c :: tr' => c :: canvasCalls tr'
  | Compared _ _ :: tr' => canvasCalls tr'
  end.

(** The six canvas calls that outline one pair of boxes: the player's box
    in red, the obstacle's in green, between a save and a restore. *)
Definition outline (pair : CollisionBox.t * CollisionBox.t)
  : list CanvasCall :=
  [save;
   set_strokeStyle "#f00";
   strokeRect (x (fst pair)) (y (fst pair))
              (width (fst pair)) (height (fst pair));
   set_strokeStyle "#0f0";
   strokeRect (x (snd pair)) (y (snd pair))
              (width (snd pair)) (height (snd pair));
   restore].

(** The depth of the canvas state stack after the calls, starting at
    [depth]; [None] if a [restore] finds nothing to pop. *)
Fixpoint stackDepth (depth : nat) (calls : list CanvasCall) : option nat :=
  match calls with
  | [] => Some depth
  | save :: calls' => stackDepth (S depth) calls'
  | restore :: calls' =>
      match depth with
      | O => None
      | S d => stackDepth d calls'
      end
  | _ :: calls' => stackDepth depth calls'
  end.

(** [box], given relative to [parent]'s origin, lies inside [parent]. *)
Definition fitsIn (parent box : CollisionBox.t) : bool :=
  (0 <=? x box) && (x box + width box <=? width parent) &&
  (0 <=? y box) && (y box + height box <=? height parent).

(** An entity or a box moved by (dx, dy) on the screen. *)
Definition movedBox (dx dy : Z) (box : CollisionBox.t) : CollisionBox.t :=
  CollisionBox.new (x box + dx) (y box + dy) (width box) (height box).

Definition movedTrex (dx dy : Z) (tRex : Trex.t) : Trex.t :=
  {| Trex.xPos := Trex.xPos tRex + dx;
     Trex.yPos := Trex.yPos tRex + dy;
     Trex.config := Trex.config tRex;
     Trex.ducking := Trex.ducking tRex |}.

Definition movedObstacle (dx dy : Z) (obstacle : Obstacle.t) : Obstacle.t :=
  {| Obstacle.xPos := Obstacle.xPos obstacle + dx;
     Obstacle.yPos := Obstacle.yPos obstacle + dy;
     Obstacle.typeConfig := Obstacle.typeConfig obstacle;
     Obstacle.size := Obstacle.size obstacle;
     Obstacle.collisionBoxes := Obstacle.collisionBoxes obstacle |}.

(** A value of [Math.random()] for which [getRandomNum min max] gives [k]:
    the multiple of 2^-53 at or just above (k - min + 1/2) / (max - min + 1). *)
Definition randomFor (min max k : Z) : Q :=
  (inject_Z (Qceiling (inject_Z ((2 * (k - min) + 1) * 2 ^ 52) /
                       inject_Z (max - min + 1))) *
   Double.pow2 (-53))%Q.

(** The character codes of a string of 8-bit characters. *)
Definition charCodes (str : string) : list Z :=
  map (fun c => Z.of_N (Ascii.N_of_ascii c)) (list_ascii_of_string str).

End Observe.

(** The body of the detector's inner loop, for one translated pair. *)
Definition testPair (ctx : bool) (pair : CollisionBox.t * CollisionBox.t)
  : Traced (option (CollisionBox.t * CollisionBox.t)) :=
  (crashed <- Utils.call_boxCompare (fst pair) (snd pair) ;;
   (if ctx then Utils.drawCollisionBoxes (fst pair) (snd pair) else ret tt) ;;
   if crashed then ret (Some (fst pair, snd pair)) else ret None)%traced.

(** ** Sample entities

    Concrete inputs on which the definitions are evaluated: a 44 x 47
    T-rex standing at x = 50, a one-piece 17 x 35 cactus, and a cloud. *)

Module Sample.

Definition runner : Runner.t :=
  {| Runner.defaultDimensions_WIDTH := 600;
     Runner.isAltGameModeEnabled := false;
     Runner.spriteDefinition_TREX_COLLISION_BOXES := [] |}.

Definition trexBoxes : Trex.collisionBoxes_t :=
  {| Trex.DUCKING := [CollisionBox.new 1 18 55 25];
     Trex.RUNNING :=
       [CollisionBox.new 22 0 17 16; CollisionBox.new 1 18 30 9;
        CollisionBox.new 10 35 14 8; CollisionBox.new 1 24 29 5;
        CollisionBox.new 5 30 21 4; CollisionBox.new 9 34 15 4] |}.

Definition tRex : Trex.t :=
  {| Trex.xPos := 50; Trex.yPos := 93;
     Trex.config := {| Trex.WIDTH := 44; Trex.HEIGHT := 47 |};
     Trex.ducking := false |}.

Definition cactusAt (xPos : Z) : Obstacle.t :=
  {| Obstacle.xPos := xPos; Obstacle.yPos := 105;
     Obstacle.typeConfig := {| Obstacle.width := 17; Obstacle.height := 35 |};
     Obstacle.size := 1;
     Obstacle.collisionBoxes :=
       [CollisionBox.new 0 7 5 27; CollisionBox.new 4 0 6 34;
        CollisionBox.new 10 4 7 14] |}.

Definition cloud : Cloud.t :=
  {| Cloud.spritePos := {| Cloud.x := 86; Cloud.y := 2 |};
     Cloud.containerWidth := 600;
     Cloud.xPos := 10; Cloud.yPos := 40;
     Cloud.remove := false; Cloud.gap := 250 |}.

Definition goneCloud : Cloud.t := Cloud.set_remove true (Cloud.set_xPos (-46) cloud).

(** An obstacle whose sub-boxes lie inside its coarse box. *)
Definition blockAt (xPos : Z) : Obstacle.t :=
  {| Obstacle.xPos := xPos; Obstacle.yPos := 105;
     Obstacle.typeConfig := {| Obstacle.width := 17; Obstacle.height := 35 |};
     Obstacle.size := 1;
     Obstacle.collisionBoxes :=
       [CollisionBox.new 0 7 5 26; CollisionBox.new 4 0 6 33;
        CollisionBox.new 10 4 5 14] |}.

(** An obstacle without sub-boxes. *)
Definition ghostAt (xPos : Z) : Obstacle.t :=
  {| Obstacle.xPos := xPos; Obstacle.yPos := 105;
     Obstacle.typeConfig := {| Obstacle.width := 17; Obstacle.height := 35 |};
     Obstacle.size := 1;
     Obstacle.collisionBoxes := [] |}.

(** A stand-in for [atob] that knows two inputs: an unpadded one and a
    padded one. *)
Definition atob (s : string) : option string :=
  if String.eqb s "YWJj" then Some "abc"%string
  else if String.eqb s "YQ==" then Some "a"%string
  else None.

End Sample.

(** ** Facts about traces and loops *)

Section TraceFacts.

Lemma result_bind {A B : Type} (m : Traced A) (k : A -> Traced B) :
  result (bind m k) = result (k (result m)).
Proof.
  destruct m as [a t1]; unfold bind, result; simpl.
  destruct (k a); reflexivity.
Qed.

Lemma trace_bind {A B : Type} (m : Traced A) (k : A -> Traced B) :
  trace (bind m k) = trace m ++ trace (k (result m)).
Proof.
  destruct m as [a t1]; unfold bind, result, trace; simpl.
  destruct (k a); reflexivity.
Qed.

Lemma comparisons_app (t1 t2 : list Event) :
  comparisons (t1 ++ t2) = comparisons t1 ++ comparisons t2.
Proof.
  induction t1 as [|e t1 IH]; simpl; [reflexivity|].
  destruct e; simpl; rewrite IH; reflexivity.
Qed.

Lemma comparisons_draw (ctx : bool) (a b : CollisionBox.t) :
  comparisons
    (trace (if ctx then Utils.drawCollisionBoxes a b else ret tt)) = [].
Proof. destruct ctx; reflexivity. Qed.

End TraceFacts.

Section SearchFacts.

Context {A : Type} (p : A -> bool).

Lemma find_app_hit (l1 l2 : list A) (a : A) :
  find p l1 = Some a -> find p (l1 ++ l2) = Some a.
Proof.
  induction l1 as [|h l1 IH]; simpl; [discriminate|].
  destruct (p h); auto.
Qed.

Lemma find_app_miss (l1 l2 : list A) :
  find p l1 = None -> find p (l1 ++ l2) = find p l2.
Proof.
  induction l1 as [|h l1 IH]; simpl; [reflexivity|].
  destruct (p h); [discriminate | exact IH].
Qed.

Lemma upToFirst_app_hit (l1 l2 : list A) (a : A) :
  find p l1 = Some a ->
  Spec.upToFirst p (l1 ++ l2) = Spec.upToFirst p l1.
Proof.
  induction l1 as [|h l1 IH]; simpl; [discriminate|].
  destruct (p h); [reflexivity|].
  intros Hf; rewrite (IH Hf); reflexivity.
Qed.

Lemma upToFirst_app_miss (l1 l2 : list A) :
  find p l1 = None ->
  Spec.upToFirst p (l1 ++ l2) = l1 ++ Spec.upToFirst p l2.
Proof.
  induction l1 as [|h l1 IH]; simpl; [reflexivity|].
  destruct (p h); [discriminate|].
  intros Hf; rewrite (IH Hf); reflexivity.
Qed.

Lemma upToFirst_miss (l : list A) :
  find p l = None -> Spec.upToFirst p l = l.
Proof.
  induction l as [|h l IH]; simpl; [reflexivity|].
  destruct (p h); [discriminate|].
  intros Hf; rewrite (IH Hf); reflexivity.
Qed.

Lemma upToFirst_incl (l : list A) (a : A) :
  In a (Spec.upToFirst p l) -> In a l.
Proof.
  induction l as [|h l IH]; simpl; [tauto|].
  destruct (p h); simpl; intuition.
Qed.

End SearchFacts.

Section LoopFacts.

Variable ctx : bool.

Lemma testPair_result pair :
  result (testPair ctx pair) =
  if Spec.overlapping pair then Some pair else None.
Proof.
  unfold testPair, Spec.overlapping.
  rewrite !result_bind. destruct pair as [a b]; simpl.
  destruct (Utils.boxCompare a b); reflexivity.
Qed.

Lemma testPair_comparisons pair :
  comparisons (trace (testPair ctx pair)) = [pair].
Proof.
  unfold testPair. rewrite !trace_bind, !comparisons_app.
  rewrite comparisons_draw. destruct pair as [a b]; simpl.
  destruct (Utils.boxCompare a b); reflexivity.
Qed.

(** One loop over pairs is a search for the first overlapping pair. *)
Lemma loop_result {X : Type} (h : X -> CollisionBox.t * CollisionBox.t)
    (l : list X) :
  result (forEachUntil l (fun x => testPair ctx (h x))) =
  find Spec.overlapping (map h l).
Proof.
  induction l as [|a l IH]; simpl; [reflexivity|].
  rewrite result_bind, testPair_result.
  destruct (Spec.overlapping (h a)); [reflexivity | exact IH].
Qed.

Lemma loop_comparisons {X : Type} (h : X -> CollisionBox.t * CollisionBox.t)
    (l : list X) :
  comparisons (trace (forEachUntil l (fun x => testPair ctx (h x)))) =
  Spec.upToFirst Spec.overlapping (map h l).
Proof.
  induction l as [|a l IH]; simpl; [reflexivity|].
  rewrite trace_bind, comparisons_app, testPair_comparisons, testPair_result.
  destruct (Spec.overlapping (h a)); simpl; [reflexivity|].
  rewrite IH; reflexivity.
Qed.

(** Two nested loops search the pairs in row-major order. *)
Lemma nested_result {X Y : Type}
    (h : X -> Y -> CollisionBox.t * CollisionBox.t)
    (outer : list X) (inner : list Y) :
  result (forEachUntil outer (fun x =>
            forEachUntil inner (fun y => testPair ctx (h x y)))) =
  find Spec.overlapping (flat_map (fun x => map (h x) inner) outer).
Proof.
  induction outer as [|a outer IH]; simpl; [reflexivity|].
  rewrite result_bind, loop_result.
  destruct (find Spec.overlapping (map (h a) inner)) as [hit|] eqn:E.
  - rewrite (find_app_hit _ _ _ _ E); reflexivity.
  - rewrite (find_app_miss _ _ _ E); exact IH.
Qed.

Lemma nested_comparisons {X Y : Type}
    (h : X -> Y -> CollisionBox.t * CollisionBox.t)
    (outer : list X) (inner : list Y) :
  comparisons (trace (forEachUntil outer (fun x =>
            forEachUntil inner (fun y => testPair ctx (h x y))))) =
  Spec.upToFirst Spec.overlapping
    (flat_map (fun x => map (h x) inner) outer).
Proof.
  induction outer as [|a outer IH]; simpl; [reflexivity|].
  rewrite trace_bind, comparisons_app, loop_comparisons, loop_result.
  destruct (find Spec.overlapping (map (h a) inner)) as [hit|] eqn:E.
  - rewrite (upToFirst_app_hit _ _ _ _ E), app_nil_r; reflexivity.
  - rewrite (upToFirst_app_miss _ _ _ E), (upToFirst_miss _ _ E), IH.
    reflexivity.
Qed.

End LoopFacts.

(** ** The detector as a search *)

Section DetectorFacts.

Variable R : Runner.t.
Variable tbl : Trex.collisionBoxes_t.
Variable obstacle : Obstacle.t.
Variable tRex : Trex.t.
Variable ctx : bool.

Let T := Spec.coarsePlayerBox tRex.
Let O := Spec.coarseObstacleBox obstacle.

Lemma checkForCollision_result :
  result (Utils.checkForCollision R tbl obstacle tRex ctx) =
  if Utils.boxCompare T O
  then find Spec.overlapping (Spec.translatedPairs R tbl obstacle tRex)
  else None.
Proof.
  unfold Utils.checkForCollision.
  rewrite !result_bind.
  change (result (Utils.call_boxCompare ?a ?b)) with (Utils.boxCompare a b).
  change (Utils.boxCompare _ _) with (Utils.boxCompare T O).
  destruct (Utils.boxCompare T O); [|reflexivity].
  exact (nested_result ctx
           (fun p o => (Spec.translate p T, Spec.translate o O))
           (Spec.playerSubBoxes R tbl tRex)
           (Obstacle.collisionBoxes obstacle)).
Qed.

Lemma checkForCollision_comparisons :
  comparisons (trace (Utils.checkForCollision R tbl obstacle tRex ctx)) =
  (T, O) ::
  (if Utils.boxCompare T O
   then Spec.upToFirst Spec.overlapping
          (Spec.translatedPairs R tbl obstacle tRex)
   else []).
Proof.
  unfold Utils.checkForCollision.
  rewrite !trace_bind, !comparisons_app.
  change (result (Utils.call_boxCompare ?a ?b)) with (Utils.boxCompare a b).
  change (Utils.boxCompare _ _) with (Utils.boxCompare T O).
  rewrite comparisons_draw. simpl app.
  change (comparisons (trace (Utils.call_boxCompare ?a ?b))) with [(a, b)].
  simpl app. f_equal.
  destruct (Utils.boxCompare T O); [|reflexivity].
  exact (nested_comparisons ctx
           (fun p o => (Spec.translate p T, Spec.translate o O))
           (Spec.playerSubBoxes R tbl tRex)
           (Obstacle.collisionBoxes obstacle)).
Qed.

(** Every pair of the search comes from one sub-box of each entity. *)
Lemma translatedPairs_origin pair :
  In pair (Spec.translatedPairs R tbl obstacle tRex) ->
  exists p o,
    In p (Spec.playerSubBoxes R tbl tRex) /\
    In o (Obstacle.collisionBoxes obstacle) /\
    pair = (Spec.translate p T, Spec.translate o O).
Proof.
  unfold Spec.translatedPairs. rewrite in_flat_map.
  intros [p [Hp Hin]]. rewrite in_map_iff in Hin.
  destruct Hin as [o [Heq Ho]].
  exists p, o. repeat split; auto.
Qed.

End DetectorFacts.

(** ** Properties of [boxCompare] *)

Import CollisionBox.

Lemma boxCompare_true_iff (a b : CollisionBox.t) :
  Utils.boxCompare a b = true <->
  x a < x b + width b /\ x a + width a > x b /\
  y a < y b + height b /\ y a + height a > y b.
Proof.
  unfold Utils.boxCompare; cbv zeta.
  destruct (x a <? x b + width b) eqn:E1;
  destruct (x a + width a >? x b) eqn:E2;
  destruct (y a <? y b + height b) eqn:E3;
  destruct (height a + y a >? y b) eqn:E4; simpl;
  rewrite ?Z.ltb_lt, ?Z.ltb_ge, ?Z.gtb_gt in *;
  try (rewrite Z.gtb_ltb, Z.ltb_ge in E2);
  try (rewrite Z.gtb_ltb, Z.ltb_ge in E4);
  split; intros H; try discriminate; try reflexivity; try lia.
Qed.

(** C1.  [boxCompare a b] is true exactly when a.x < b.x + b.width,
    a.x + a.width > b.x, a.y < b.y + b.height and a.y + a.height > b.y all
    hold; boxes that touch on an edge (equality in one of the four
    comparisons) are therefore not overlapping. *)
Theorem boxCompare_strict_aabb (a b : CollisionBox.t) :
  (Utils.boxCompare a b = true <->
   x a < x b + width b /\ x a + width a > x b /\
   y a < y b + height b /\ y a + height a > y b) /\
  (x a = x b + width b \/ x a + width a = x b \/
   y a = y b + height b \/ y a + height a = y b ->
   Utils.boxCompare a b = false).
Proof.
  split; [apply boxCompare_true_iff|].
  intros Htouch.
  destruct (Utils.boxCompare a b) eqn:E; [|reflexivity].
  apply boxCompare_true_iff in E. lia.
Qed.

(** A player box whose right edge lies exactly on the obstacle's left edge. *)
Lemma boxCompare_strict_aabb_witness :
  (x (new 0 0 20 20) = x (new 20 0 20 20) + width (new 20 0 20 20) \/
   x (new 0 0 20 20) + width (new 0 0 20 20) = x (new 20 0 20 20) \/
   y (new 0 0 20 20) = y (new 20 0 20 20) + height (new 20 0 20 20) \/
   y (new 0 0 20 20) + height (new 0 0 20 20) = y (new 20 0 20 20)) /\
  Utils.boxCompare (new 0 0 20 20) (new 20 0 20 20) = false.
Proof.
  assert (Htouch :
    x (new 0 0 20 20) = x (new 20 0 20 20) + width (new 20 0 20 20) \/
    x (new 0 0 20 20) + width (new 0 0 20 20) = x (new 20 0 20 20) \/
    y (new 0 0 20 20) = y (new 20 0 20 20) + height (new 20 0 20 20) \/
    y (new 0 0 20 20) + height (new 0 0 20 20) = y (new 20 0 20 20)).
  { right; left; reflexivity. }
  split; [exact Htouch|].
  exact (proj2 (boxCompare_strict_aabb (new 0 0 20 20) (new 20 0 20 20)) Htouch).
Defined.

(** C5.  [boxCompare] is symmetric in its two boxes. *)
Theorem boxCompare_symmetric (a b : CollisionBox.t) :
  Utils.boxCompare a b = Utils.boxCompare b a.
Proof.
  destruct (Utils.boxCompare a b) eqn:Eab;
  destruct (Utils.boxCompare b a) eqn:Eba; try reflexivity.
  - apply boxCompare_true_iff in Eab.
    assert (Utils.boxCompare b a = true) as Hba
      by (apply boxCompare_true_iff; lia).
    congruence.
  - apply boxCompare_true_iff in Eba.
    assert (Utils.boxCompare a b = true) as Hab
      by (apply boxCompare_true_iff; lia).
    congruence.
Qed.

(** C6.  Scenario B: two identical boxes {x:100, y:0, width:20, height:20}
    overlap.  Scenario C: the player box {x:0, y:0, width:20, height:20}
    and the obstacle box {x:200, y:0, width:20, height:20} do not. *)
Theorem boxCompare_scenarios :
  Utils.boxCompare (new 100 0 20 20) (new 100 0 20 20) = true /\
  Utils.boxCompare (new 0 0 20 20) (new 200 0 20 20) = false.
Proof. split; reflexivity. Qed.

(** ** Properties of [checkForCollision] *)

(** C2.  When the coarse boxes do not overlap, [checkForCollision] returns
    none, the coarse pair is the only pair handed to [boxCompare], and
    nothing but the coarse boxes is drawn. *)
Theorem checkForCollision_fast_reject
    (R : Runner.t) (tbl : Trex.collisionBoxes_t)
    (obstacle : Obstacle.t) (tRex : Trex.t) (opt_canvasCtx : bool) :
  Utils.boxCompare (Spec.coarsePlayerBox tRex)
                   (Spec.coarseObstacleBox obstacle) = false ->
  let run := Utils.checkForCollision R tbl obstacle tRex opt_canvasCtx in
  result run = None /\
  comparisons (trace run) =
    [(Spec.coarsePlayerBox tRex, Spec.coarseObstacleBox obstacle)] /\
  trace run =
    trace (if opt_canvasCtx
           then Utils.drawCollisionBoxes (Spec.coarsePlayerBox tRex)
                                         (Spec.coarseObstacleBox obstacle)
           else ret tt) ++
    [Compared (Spec.coarsePlayerBox tRex) (Spec.coarseObstacleBox obstacle)].
Proof.
  intros Hmiss run; subst run.
  rewrite checkForCollision_result, checkForCollision_comparisons, Hmiss.
  repeat split.
  unfold Utils.checkForCollision.
  rewrite !trace_bind.
  change (result (Utils.call_boxCompare ?a ?b)) with (Utils.boxCompare a b).
  change (Utils.boxCompare _ _)
    with (Utils.boxCompare (Spec.coarsePlayerBox tRex)
                           (Spec.coarseObstacleBox obstacle)).
  rewrite Hmiss. simpl (trace (ret None)). rewrite app_nil_r.
  reflexivity.
Qed.

(** The cactus is 350 pixels ahead of the T-rex. *)
Lemma checkForCollision_fast_reject_witness :
  result (Utils.checkForCollision Sample.runner Sample.trexBoxes
            (Sample.cactusAt 400) Sample.tRex true) = None /\
  comparisons (trace (Utils.checkForCollision Sample.runner Sample.trexBoxes
            (Sample.cactusAt 400) Sample.tRex true)) =
    [(new 51 94 42 45, new 401 106 15 33)].
Proof.
  pose proof (checkForCollision_fast_reject Sample.runner Sample.trexBoxes
                (Sample.cactusAt 400) Sample.tRex true eq_refl) as H.
  split; [exact (proj1 H) | exact (proj1 (proj2 H))].
Defined.

(** C3.  When the coarse boxes overlap, the detector goes through the pairs
    (player sub-box, obstacle sub-box) with the player's sub-boxes in the
    outer loop and the obstacle's in the inner loop, each sub-box moved by
    the origin of its parent's coarse box with width and height kept, and
    returns the first pair that [boxCompare] accepts; the pairs tested are
    those up to and including that one, in that order. *)
Theorem checkForCollision_first_overlapping_pair
    (R : Runner.t) (tbl : Trex.collisionBoxes_t)
    (obstacle : Obstacle.t) (tRex : Trex.t) (opt_canvasCtx : bool) :
  Utils.boxCompare (Spec.coarsePlayerBox tRex)
                   (Spec.coarseObstacleBox obstacle) = true ->
  let run := Utils.checkForCollision R tbl obstacle tRex opt_canvasCtx in
  result run =
    find Spec.overlapping (Spec.translatedPairs R tbl obstacle tRex) /\
  comparisons (trace run) =
    (Spec.coarsePlayerBox tRex, Spec.coarseObstacleBox obstacle) ::
    Spec.upToFirst Spec.overlapping (Spec.translatedPairs R tbl obstacle tRex) /\
  (forall box parent,
     Utils.createAdjustedCollisionBox box parent =
     new (x box + x parent) (y box + y parent) (width box) (height box)).
Proof.
  intros Hhit run; subst run.
  rewrite checkForCollision_result, checkForCollision_comparisons, Hhit.
  repeat split.
Qed.

(** The cactus stands 10 pixels into the T-rex: the head box misses all
    three cactus boxes, the body box hits the first one. *)
Lemma checkForCollision_first_overlapping_pair_witness :
  result (Utils.checkForCollision Sample.runner Sample.trexBoxes
            (Sample.cactusAt 60) Sample.tRex false) =
    Some (new 52 112 30 9, new 61 113 5 27) /\
  comparisons (trace (Utils.checkForCollision Sample.runner Sample.trexBoxes
            (Sample.cactusAt 60) Sample.tRex false)) =
    [(new 51 94 42 45, new 61 106 15 33);
     (new 73 94 17 16, new 61 113 5 27);
     (new 73 94 17 16, new 65 106 6 34);
     (new 73 94 17 16, new 71 110 7 14);
     (new 52 112 30 9, new 61 113 5 27)].
Proof.
  pose proof (checkForCollision_first_overlapping_pair
                Sample.runner Sample.trexBoxes
                (Sample.cactusAt 60) Sample.tRex false eq_refl) as H.
  split; [exact (proj1 H) | exact (proj1 (proj2 H))].
Defined.

(** C4.  The detector builds one coarse box per entity, the sprite inset by
    1 on each side: (xPos + 1, yPos + 1, WIDTH - 2, HEIGHT - 2) for the
    player and (xPos + 1, yPos + 1, width * size - 2, height - 2) for the
    obstacle.  They form the first pair tested, and every later pair is a
    pair of sub-boxes moved by the origins of these two boxes. *)
Theorem checkForCollision_coarse_boxes
    (R : Runner.t) (tbl : Trex.collisionBoxes_t)
    (obstacle : Obstacle.t) (tRex : Trex.t) (opt_canvasCtx : bool) :
  let tRexBox :=
    new (Trex.xPos tRex + 1) (Trex.yPos tRex + 1)
        (Trex.WIDTH (Trex.config tRex) - 2)
        (Trex.HEIGHT (Trex.config tRex) - 2) in
  let obstacleBox :=
    new (Obstacle.xPos obstacle + 1) (Obstacle.yPos obstacle + 1)
        (Obstacle.width (Obstacle.typeConfig obstacle) * Obstacle.size obstacle - 2)
        (Obstacle.height (Obstacle.typeConfig obstacle) - 2) in
  (exists later,
     comparisons
       (trace (Utils.checkForCollision R tbl obstacle tRex opt_canvasCtx)) =
       (tRexBox, obstacleBox) :: later /\
     Forall (fun pair =>
               exists p o,
                 In p (Spec.playerSubBoxes R tbl tRex) /\
                 In o (Obstacle.collisionBoxes obstacle) /\
                 pair = (Utils.createAdjustedCollisionBox p tRexBox,
                         Utils.createAdjustedCollisionBox o obstacleBox))
            later) /\
  (x tRexBox = Trex.xPos tRex + 1 /\
   x tRexBox + width tRexBox = Trex.xPos tRex + Trex.WIDTH (Trex.config tRex) - 1 /\
   y tRexBox = Trex.yPos tRex + 1 /\
   y tRexBox + height tRexBox = Trex.yPos tRex + Trex.HEIGHT (Trex.config tRex) - 1) /\
  (x obstacleBox = Obstacle.xPos obstacle + 1 /\
   x obstacleBox + width obstacleBox =
     Obstacle.xPos obstacle +
     Obstacle.width (Obstacle.typeConfig obstacle) * Obstacle.size obstacle - 1 /\
   y obstacleBox = Obstacle.yPos obstacle + 1 /\
   y obstacleBox + height obstacleBox =
     Obstacle.yPos obstacle + Obstacle.height (Obstacle.typeConfig obstacle) - 1).
Proof.
  intros tRexBox obstacleBox.
  split; [|subst tRexBox obstacleBox; simpl; lia].
  rewrite checkForCollision_comparisons.
  eexists; split; [reflexivity|].
  destruct (Utils.boxCompare _ _); [|constructor].
  apply Forall_forall; intros pair Hin.
  apply upToFirst_incl in Hin.
  exact (translatedPairs_origin R tbl obstacle tRex pair Hin).
Qed.

(** C10.  A pair returned by [checkForCollision] is a pair that
    [boxCompare] accepts. *)
Theorem checkForCollision_sound
    (R : Runner.t) (tbl : Trex.collisionBoxes_t)
    (obstacle : Obstacle.t) (tRex : Trex.t) (opt_canvasCtx : bool)
    (adjTrexBox adjObstacleBox : CollisionBox.t) :
  result (Utils.checkForCollision R tbl obstacle tRex opt_canvasCtx) =
    Some (adjTrexBox, adjObstacleBox) ->
  Utils.boxCompare adjTrexBox adjObstacleBox = true.
Proof.
  rewrite checkForCollision_result.
  destruct (Utils.boxCompare _ _); [|discriminate].
  intros Hfound. apply find_some in Hfound.
  exact (proj2 Hfound).
Qed.

Lemma checkForCollision_sound_witness :
  Utils.boxCompare (new 52 112 30 9) (new 61 113 5 27) = true.
Proof.
  exact (checkForCollision_sound Sample.runner Sample.trexBoxes
           (Sample.cactusAt 60) Sample.tRex true
           (new 52 112 30 9) (new 61 113 5 27) eq_refl).
Defined.

(** ** Properties of clouds *)

Lemma Cloud_update_gone (speed : Q) (c : Cloud.t) :
  Cloud.remove c = true -> Cloud.update speed c = ((c, Normal tt), []).
Proof. intros Hgone. unfold Cloud.update. rewrite Hgone. reflexivity. Qed.

Lemma Cloud_update_live (speed : Q) (c : Cloud.t) :
  Cloud.remove c = false ->
  Cloud.update speed c =
    ((Cloud.set_xPos (Cloud.xPos c - Qceiling speed) c,
      Throw (ReferenceError "IS_HIDPI")),
     [OnCanvas save]).
Proof. intros Hlive. unfold Cloud.update. rewrite Hlive. reflexivity. Qed.

(** C7, as the code behaves.  On a cloud that is not yet removed,
    [update speed] moves [xPos] left by [speed] rounded up and calls
    [draw], which saves the canvas state and then throws a
    [ReferenceError] for [IS_HIDPI]: the test of [isVisible] is not
    reached, so [remove] stays false wherever the cloud now is, and the
    saved canvas state is not restored. *)
Theorem Cloud_update_live_throws (speed : Q) (c : Cloud.t) :
  Cloud.remove c = false ->
  let after := fst (result (Cloud.update speed c)) in
  snd (result (Cloud.update speed c)) = Throw (ReferenceError "IS_HIDPI") /\
  Cloud.xPos after = Cloud.xPos c - Qceiling speed /\
  Cloud.remove after = false /\
  trace (Cloud.update speed c) = [OnCanvas save].
Proof.
  intros Hlive after; subst after.
  rewrite (Cloud_update_live speed c Hlive). simpl.
  repeat split. exact Hlive.
Qed.

(** A cloud at x = 10 scrolled at speed 60 ends at x = -50, wholly left of
    the viewport, and is not marked removable. *)
Lemma Cloud_update_live_throws_witness :
  Cloud.xPos (fst (result (Cloud.update (60 # 1) Sample.cloud))) = -50 /\
  Cloud.isVisible (fst (result (Cloud.update (60 # 1) Sample.cloud))) = false /\
  Cloud.remove (fst (result (Cloud.update (60 # 1) Sample.cloud))) = false /\
  snd (result (Cloud.update (60 # 1) Sample.cloud)) =
    Throw (ReferenceError "IS_HIDPI").
Proof.
  pose proof (Cloud_update_live_throws (60 # 1) Sample.cloud eq_refl) as H.
  destruct H as [Hthrow [Hx [Hr _]]].
  split; [exact Hx|]. split; [reflexivity|]. split; [exact Hr | exact Hthrow].
Defined.

(** C8.  Once [remove] is true, [update] changes no field of the cloud,
    whatever the speed (and draws nothing). *)
Theorem Cloud_update_removed_frame (speed : Q) (c : Cloud.t) :
  Cloud.remove c = true ->
  result (Cloud.update speed c) = (c, Normal tt) /\
  trace (Cloud.update speed c) = [].
Proof.
  intros Hgone. unfold Cloud.update. rewrite Hgone.
  split; reflexivity.
Qed.

Lemma Cloud_update_removed_frame_witness :
  Cloud.remove Sample.goneCloud = true /\
  result (Cloud.update (5 # 1) Sample.goneCloud) =
    (Sample.goneCloud, Normal tt).
Proof.
  split; [reflexivity|].
  exact (proj1 (Cloud_update_removed_frame (5 # 1) Sample.goneCloud
                  eq_refl)).
Defined.

(** C9, as the code behaves.  [new Cloud(canvas, spritePos,
    containerWidth)] throws a [ReferenceError] for [getRandomNum] when it
    comes to set [gap]: no cloud is constructed, [yPos] is never drawn
    from [MAX_SKY_LEVEL, MIN_SKY_LEVEL], and nothing is drawn. *)
Theorem Cloud_constructor_throws
    (spritePos : Cloud.spritePos_t) (containerWidth : Z) :
  result (Cloud.constructor spritePos containerWidth) =
    Throw (ReferenceError "getRandomNum") /\
  trace (Cloud.constructor spritePos containerWidth) = [].
Proof. split; reflexivity. Qed.

(** ** Further properties of boxes *)

(** X1.  A box overlaps itself exactly when its width and its height are
    both positive: an empty or inverted box collides with nothing it
    equals. *)
Theorem boxCompare_self (a : CollisionBox.t) :
  Utils.boxCompare a a = (0 <? width a) && (0 <? height a).
Proof.
  destruct (Utils.boxCompare a a) eqn:E.
  - apply boxCompare_true_iff in E. symmetry.
    apply andb_true_iff; split; apply Z.ltb_lt; lia.
  - symmetry. apply not_true_is_false; intros H.
    apply andb_true_iff in H; destruct H as [Hw Hh].
    apply Z.ltb_lt in Hw, Hh.
    assert (Utils.boxCompare a a = true) as Ht
      by (apply boxCompare_true_iff; lia).
    congruence.
Qed.

(** X2.  Moving both boxes by the same adjustment does not change whether
    they overlap. *)
Theorem boxCompare_translation_invariant (a b adjustment : CollisionBox.t) :
  Utils.boxCompare (Utils.createAdjustedCollisionBox a adjustment)
                   (Utils.createAdjustedCollisionBox b adjustment) =
  Utils.boxCompare a b.
Proof.
  destruct (Utils.boxCompare a b) eqn:E.
  - apply boxCompare_true_iff in E.
    apply boxCompare_true_iff; simpl; lia.
  - apply not_true_is_false; intros H.
    apply boxCompare_true_iff in H; simpl in H.
    assert (Utils.boxCompare a b = true) as Ht
      by (apply boxCompare_true_iff; lia).
    congruence.
Qed.

(** X3.  Overlap is kept when the obstacle box grows: if [a] overlaps [b]
    and [b] lies inside [b'], then [a] overlaps [b']. *)
Theorem boxCompare_monotone (a b b' : CollisionBox.t) :
  Utils.boxCompare a b = true ->
  x b' <= x b -> x b + width b <= x b' + width b' ->
  y b' <= y b -> y b + height b <= y b' + height b' ->
  Utils.boxCompare a b' = true.
Proof.
  intros Hab Hx0 Hx1 Hy0 Hy1.
  apply boxCompare_true_iff in Hab.
  apply boxCompare_true_iff; lia.
Qed.

Lemma boxCompare_monotone_witness :
  Utils.boxCompare (new 0 0 20 20) (new 15 15 10 10) = true /\
  Utils.boxCompare (new 0 0 20 20) (new 10 10 30 30) = true.
Proof.
  split; [reflexivity|].
  apply (boxCompare_monotone (new 0 0 20 20) (new 15 15 10 10)
           (new 10 10 30 30));
    [reflexivity | simpl; lia | simpl; lia | simpl; lia | simpl; lia].
Defined.

(** X4.  Adjustments compose by adding their origins, and an adjustment
    with origin (0, 0) changes nothing; the adjustment's own width and
    height never matter. *)
Theorem createAdjustedCollisionBox_compose
    (box p q : CollisionBox.t) (w h : Z) :
  Utils.createAdjustedCollisionBox (Utils.createAdjustedCollisionBox box p) q =
    Utils.createAdjustedCollisionBox box (new (x p + x q) (y p + y q) w h) /\
  Utils.createAdjustedCollisionBox box (new 0 0 w h) = box.
Proof.
  destruct box as [bx by_ bw bh]; unfold Utils.createAdjustedCollisionBox;
    simpl.
  split; f_equal; lia.
Qed.

(** ** Further properties of [checkForCollision] *)

Section CanvasFacts.

Lemma canvasCalls_app (t1 t2 : list Event) :
  Observe.canvasCalls (t1 ++ t2) =
  Observe.canvasCalls t1 ++ Observe.canvasCalls t2.
Proof.
  induction t1 as [|e t1 IH]; simpl; [reflexivity|].
  destruct e; simpl; rewrite IH; reflexivity.
Qed.

Lemma canvasCalls_draw (ctx : bool) (a b : CollisionBox.t) :
  Observe.canvasCalls
    (trace (if ctx then Utils.drawCollisionBoxes a b else ret tt)) =
  if ctx then Observe.outline (a, b) else [].
Proof. destruct ctx; reflexivity. Qed.

Variable ctx : bool.

Let drawn (pair : CollisionBox.t * CollisionBox.t) : list CanvasCall :=
  if ctx then Observe.outline pair else [].

Lemma testPair_canvas pair :
  Observe.canvasCalls (trace (testPair ctx pair)) = drawn pair.
Proof.
  unfold testPair, drawn. rewrite !trace_bind, !canvasCalls_app.
  rewrite canvasCalls_draw. destruct pair as [a b]; simpl.
  destruct (Utils.boxCompare a b); simpl; apply app_nil_r.
Qed.

Lemma loop_canvas {X : Type} (h : X -> CollisionBox.t * CollisionBox.t)
    (l : list X) :
  Observe.canvasCalls (trace (forEachUntil l (fun x => testPair ctx (h x)))) =
  flat_map drawn (Spec.upToFirst Spec.overlapping (map h l)).
Proof.
  induction l as [|a l IH]; simpl; [reflexivity|].
  rewrite trace_bind, canvasCalls_app, testPair_canvas, testPair_result.
  destruct (Spec.overlapping (h a)); simpl.
  - reflexivity.
  - rewrite IH; reflexivity.
Qed.

Lemma nested_canvas {X Y : Type}
    (h : X -> Y -> CollisionBox.t * CollisionBox.t)
    (outer : list X) (inner : list Y) :
  Observe.canvasCalls (trace (forEachUntil outer (fun x =>
            forEachUntil inner (fun y => testPair ctx (h x y))))) =
  flat_map drawn
    (Spec.upToFirst Spec.overlapping
       (flat_map (fun x => map (h x) inner) outer)).
Proof.
  induction outer as [|a outer IH]; simpl; [reflexivity|].
  rewrite trace_bind, canvasCalls_app, loop_canvas, loop_result.
  destruct (find Spec.overlapping (map (h a) inner)) as [hit|] eqn:E.
  - rewrite (upToFirst_app_hit _ _ _ _ E). simpl. apply app_nil_r.
  - rewrite (upToFirst_app_miss _ _ _ E), (upToFirst_miss _ _ E), IH.
    rewrite flat_map_app. reflexivity.
Qed.

Lemma checkForCollision_canvas
    (R : Runner.t) (tbl : Trex.collisionBoxes_t)
    (obstacle : Obstacle.t) (tRex : Trex.t) :
  Observe.canvasCalls
    (trace (Utils.checkForCollision R tbl obstacle tRex ctx)) =
  flat_map drawn
    (comparisons (trace (Utils.checkForCollision R tbl obstacle tRex ctx))).
Proof.
  rewrite checkForCollision_comparisons.
  unfold Utils.checkForCollision.
  rewrite !trace_bind, !canvasCalls_app.
  change (result (Utils.call_boxCompare ?a ?b)) with (Utils.boxCompare a b).
  change (Utils.boxCompare _ _)
    with (Utils.boxCompare (Spec.coarsePlayerBox tRex)
                           (Spec.coarseObstacleBox obstacle)).
  rewrite canvasCalls_draw.
  change (Observe.canvasCalls (trace (Utils.call_boxCompare ?a ?b)))
    with (@nil CanvasCall).
  simpl flat_map. unfold drawn at 2. simpl app. f_equal.
  destruct (Utils.boxCompare _ _); [|reflexivity].
  exact (nested_canvas
           (fun p o => (Spec.translate p (Spec.coarsePlayerBox tRex),
                        Spec.translate o (Spec.coarseObstacleBox obstacle)))
           (Spec.playerSubBoxes R tbl tRex)
           (Obstacle.collisionBoxes obstacle)).
Qed.

End CanvasFacts.

Lemma stackDepth_outlines (pairs : list (CollisionBox.t * CollisionBox.t))
    (depth : nat) :
  Observe.stackDepth depth (flat_map Observe.outline pairs) = Some depth.
Proof.
  induction pairs as [|pair pairs IH]; simpl; [reflexivity | exact IH].
Qed.

Section DetectorMore.

Variable R : Runner.t.
Variable tbl : Trex.collisionBoxes_t.
Variable obstacle : Obstacle.t.
Variable tRex : Trex.t.

Let T := Spec.coarsePlayerBox tRex.
Let O := Spec.coarseObstacleBox obstacle.

Lemma translatedPairs_member p o :
  In p (Spec.playerSubBoxes R tbl tRex) ->
  In o (Obstacle.collisionBoxes obstacle) ->
  In (Utils.createAdjustedCollisionBox p T,
      Utils.createAdjustedCollisionBox o O)
     (Spec.translatedPairs R tbl obstacle tRex).
Proof.
  intros Hp Ho. unfold Spec.translatedPairs. apply in_flat_map.
  exists p; split; [exact Hp|].
  apply in_map_iff. exists o; split; [reflexivity | exact Ho].
Qed.

Lemma checkForCollision_none_iff (ctx : bool) :
  result (Utils.checkForCollision R tbl obstacle tRex ctx) = None <->
  Utils.boxCompare T O = false \/
  (forall p o,
     In p (Spec.playerSubBoxes R tbl tRex) ->
     In o (Obstacle.collisionBoxes obstacle) ->
     Utils.boxCompare (Utils.createAdjustedCollisionBox p T)
                      (Utils.createAdjustedCollisionBox o O) = false).
Proof.
  rewrite checkForCollision_result. fold T O.
  destruct (Utils.boxCompare T O); [|split; auto].
  split.
  - intros Hnone. right. intros p o Hp Ho.
    exact (find_none _ _ Hnone _ (translatedPairs_member p o Hp Ho)).
  - intros [Habs | Hall]; [discriminate|].
    destruct (find Spec.overlapping
                (Spec.translatedPairs R tbl obstacle tRex))
      as [pair|] eqn:E; [|reflexivity].
    apply find_some in E. destruct E as [Hin Hov].
    apply translatedPairs_origin in Hin.
    destruct Hin as [p [o [Hp [Ho Heq]]]]. subst pair.
    exfalso. unfold Spec.overlapping in Hov.
    exact (eq_true_false_abs _ Hov (Hall p o Hp Ho)).
Qed.

(** Sub-boxes inside their coarse boxes can only overlap when the coarse
    boxes do. *)
Lemma coarse_overlap_of_sub_overlap p o :
  Observe.fitsIn T p = true -> Observe.fitsIn O o = true ->
  Utils.boxCompare (Utils.createAdjustedCollisionBox p T)
                   (Utils.createAdjustedCollisionBox o O) = true ->
  Utils.boxCompare T O = true.
Proof.
  clearbody T O.
  unfold Observe.fitsIn. intros Hp Ho Hov.
  rewrite !andb_true_iff, !Z.leb_le in Hp, Ho.
  apply boxCompare_true_iff in Hov; simpl in Hov.
  apply boxCompare_true_iff. lia.
Qed.

End DetectorMore.

(** X5.  The detector reports nothing exactly when the coarse boxes miss
    each other or no player sub-box overlaps any obstacle sub-box once both
    are moved to their coarse box's origin. *)
Theorem checkForCollision_none_exactly
    (R : Runner.t) (tbl : Trex.collisionBoxes_t)
    (obstacle : Obstacle.t) (tRex : Trex.t) (opt_canvasCtx : bool) :
  result (Utils.checkForCollision R tbl obstacle tRex opt_canvasCtx) = None <->
  Utils.boxCompare (Spec.coarsePlayerBox tRex)
                   (Spec.coarseObstacleBox obstacle) = false \/
  (forall p o,
     In p (Spec.playerSubBoxes R tbl tRex) ->
     In o (Obstacle.collisionBoxes obstacle) ->
     Utils.boxCompare
       (Utils.createAdjustedCollisionBox p (Spec.coarsePlayerBox tRex))
       (Utils.createAdjustedCollisionBox o (Spec.coarseObstacleBox obstacle))
     = false).
Proof. apply checkForCollision_none_iff. Qed.

(** X6.  Passing a canvas context changes neither the result nor the boxes
    that are compared; without a context nothing is drawn. *)
Theorem checkForCollision_debug_drawing_is_inert
    (R : Runner.t) (tbl : Trex.collisionBoxes_t)
    (obstacle : Obstacle.t) (tRex : Trex.t) :
  result (Utils.checkForCollision R tbl obstacle tRex true) =
    result (Utils.checkForCollision R tbl obstacle tRex false) /\
  comparisons (trace (Utils.checkForCollision R tbl obstacle tRex true)) =
    comparisons (trace (Utils.checkForCollision R tbl obstacle tRex false)) /\
  Observe.canvasCalls
    (trace (Utils.checkForCollision R tbl obstacle tRex false)) = [].
Proof.
  rewrite !checkForCollision_result, !checkForCollision_comparisons.
  repeat split.
  rewrite checkForCollision_canvas.
  induction (comparisons _) as [|pair l IH]; simpl; [reflexivity | exact IH].
Qed.

(** X7.  With a canvas context, every pair handed to [boxCompare] is
    outlined, in the order of the comparisons (the coarse pair first, the
    colliding pair last), and nothing else is drawn; each outline saves
    and restores the canvas state, so the state stack ends as it began. *)
Theorem checkForCollision_outlines_what_it_compares
    (R : Runner.t) (tbl : Trex.collisionBoxes_t)
    (obstacle : Obstacle.t) (tRex : Trex.t) :
  let run := Utils.checkForCollision R tbl obstacle tRex true in
  Observe.canvasCalls (trace run) =
    flat_map Observe.outline (comparisons (trace run)) /\
  Observe.stackDepth 0 (Observe.canvasCalls (trace run)) = Some 0%nat.
Proof.
  intros run; subst run.
  rewrite checkForCollision_canvas.
  split; [reflexivity | apply stackDepth_outlines].
Qed.

(** X8.  An obstacle without sub-boxes, or a player without sub-boxes in
    its current state, never collides, even when the coarse boxes
    overlap. *)
Theorem checkForCollision_no_sub_boxes
    (R : Runner.t) (tbl : Trex.collisionBoxes_t)
    (obstacle : Obstacle.t) (tRex : Trex.t) (opt_canvasCtx : bool) :
  Obstacle.collisionBoxes obstacle = [] \/
  Spec.playerSubBoxes R tbl tRex = [] ->
  result (Utils.checkForCollision R tbl obstacle tRex opt_canvasCtx) = None.
Proof.
  intros Hempty. apply checkForCollision_none_iff. right.
  intros p o Hp Ho.
  destruct Hempty as [He | He]; rewrite He in *; contradiction.
Qed.

(** The coarse boxes overlap, but the obstacle has no sub-box. *)
Lemma checkForCollision_no_sub_boxes_witness :
  Utils.boxCompare (Spec.coarsePlayerBox Sample.tRex)
                   (Spec.coarseObstacleBox (Sample.ghostAt 60)) = true /\
  result (Utils.checkForCollision Sample.runner Sample.trexBoxes
            (Sample.ghostAt 60) Sample.tRex false) = None.
Proof.
  split; [reflexivity|].
  apply (checkForCollision_no_sub_boxes Sample.runner Sample.trexBoxes
           (Sample.ghostAt 60) Sample.tRex false).
  left; reflexivity.
Defined.

(** X9.  When every sub-box lies inside its entity's coarse box, the
    coarse test hides no collision: the detector reports nothing exactly
    when no pair of moved sub-boxes overlaps. *)
Theorem checkForCollision_coarse_test_lossless
    (R : Runner.t) (tbl : Trex.collisionBoxes_t)
    (obstacle : Obstacle.t) (tRex : Trex.t) (opt_canvasCtx : bool) :
  forallb (Observe.fitsIn (Spec.coarsePlayerBox tRex))
          (Spec.playerSubBoxes R tbl tRex) = true ->
  forallb (Observe.fitsIn (Spec.coarseObstacleBox obstacle))
          (Obstacle.collisionBoxes obstacle) = true ->
  (result (Utils.checkForCollision R tbl obstacle tRex opt_canvasCtx) = None <->
   forall p o,
     In p (Spec.playerSubBoxes R tbl tRex) ->
     In o (Obstacle.collisionBoxes obstacle) ->
     Utils.boxCompare
       (Utils.createAdjustedCollisionBox p (Spec.coarsePlayerBox tRex))
       (Utils.createAdjustedCollisionBox o (Spec.coarseObstacleBox obstacle))
     = false).
Proof.
  intros HfitP HfitO.
  rewrite forallb_forall in HfitP, HfitO.
  rewrite checkForCollision_none_iff.
  split; [|auto].
  intros [Hmiss | Hall]; [|exact Hall].
  intros p o Hp Ho.
  apply not_true_is_false; intros Hov.
  pose proof (coarse_overlap_of_sub_overlap obstacle tRex p o
                (HfitP p Hp) (HfitO o Ho) Hov) as Hcoarse.
  congruence.
Qed.

Lemma checkForCollision_coarse_test_lossless_witness :
  result (Utils.checkForCollision Sample.runner Sample.trexBoxes
            (Sample.blockAt 400) Sample.tRex false) = None <->
  forall p o,
    In p (Spec.playerSubBoxes Sample.runner Sample.trexBoxes Sample.tRex) ->
    In o (Obstacle.collisionBoxes (Sample.blockAt 400)) ->
    Utils.boxCompare
      (Utils.createAdjustedCollisionBox p (Spec.coarsePlayerBox Sample.tRex))
      (Utils.createAdjustedCollisionBox o
         (Spec.coarseObstacleBox (Sample.blockAt 400)))
    = false.
Proof.
  apply (checkForCollision_coarse_test_lossless Sample.runner
           Sample.trexBoxes (Sample.blockAt 400) Sample.tRex false);
    reflexivity.
Defined.

(** X10.  A reported pair is made of one of the player's current sub-boxes
    and one of the obstacle's sub-boxes, each moved by its sprite's
    position plus the 1-pixel inset, with its own width and height; and the
    coarse boxes overlap. *)
Theorem checkForCollision_reports_sub_boxes
    (R : Runner.t) (tbl : Trex.collisionBoxes_t)
    (obstacle : Obstacle.t) (tRex : Trex.t) (opt_canvasCtx : bool)
    (adjTrexBox adjObstacleBox : CollisionBox.t) :
  result (Utils.checkForCollision R tbl obstacle tRex opt_canvasCtx) =
    Some (adjTrexBox, adjObstacleBox) ->
  Utils.boxCompare (Spec.coarsePlayerBox tRex)
                   (Spec.coarseObstacleBox obstacle) = true /\
  exists p o,
    In p (Spec.playerSubBoxes R tbl tRex) /\
    In o (Obstacle.collisionBoxes obstacle) /\
    adjTrexBox =
      new (x p + (Trex.xPos tRex + 1)) (y p + (Trex.yPos tRex + 1))
          (width p) (height p) /\
    adjObstacleBox =
      new (x o + (Obstacle.xPos obstacle + 1))
          (y o + (Obstacle.yPos obstacle + 1))
          (width o) (height o).
Proof.
  rewrite checkForCollision_result.
  destruct (Utils.boxCompare _ _); [|discriminate].
  intros Hfound. split; [reflexivity|].
  apply find_some in Hfound. destruct Hfound as [Hin _].
  apply translatedPairs_origin in Hin.
  destruct Hin as [p [o [Hp [Ho Heq]]]].
  exists p, o. inversion Heq. repeat split; assumption.
Qed.

Lemma checkForCollision_reports_sub_boxes_witness :
  exists p o,
    In p (Trex.RUNNING Sample.trexBoxes) /\
    In o (Obstacle.collisionBoxes (Sample.cactusAt 60)) /\
    new 52 112 30 9 = new (x p + 51) (y p + 94) (width p) (height p) /\
    new 61 113 5 27 = new (x o + 61) (y o + 106) (width o) (height o).
Proof.
  exact (proj2 (checkForCollision_reports_sub_boxes Sample.runner
                  Sample.trexBoxes (Sample.cactusAt 60) Sample.tRex false
                  (new 52 112 30 9) (new 61 113 5 27) eq_refl)).
Defined.

(** X11.  Sprites that are apart on either axis, up to the two pixels of
    border, never collide: the obstacle starts at or beyond the player's
    right or bottom inset edge, or ends at or before the player's left or
    top inset edge.  The coarse comparison is then the only one made. *)
Theorem checkForCollision_separated_sprites
    (R : Runner.t) (tbl : Trex.collisionBoxes_t)
    (obstacle : Obstacle.t) (tRex : Trex.t) (opt_canvasCtx : bool) :
  Obstacle.xPos obstacle >=
    Trex.xPos tRex + Trex.WIDTH (Trex.config tRex) - 2 \/
  Obstacle.xPos obstacle +
    Obstacle.width (Obstacle.typeConfig obstacle) * Obstacle.size obstacle <=
    Trex.xPos tRex + 2 \/
  Obstacle.yPos obstacle >=
    Trex.yPos tRex + Trex.HEIGHT (Trex.config tRex) - 2 \/
  Obstacle.yPos obstacle + Obstacle.height (Obstacle.typeConfig obstacle) <=
    Trex.yPos tRex + 2 ->
  result (Utils.checkForCollision R tbl obstacle tRex opt_canvasCtx) = None /\
  List.length
    (comparisons
       (trace (Utils.checkForCollision R tbl obstacle tRex opt_canvasCtx)))
    = 1%nat.
Proof.
  intros Hapart.
  assert (Hmiss : Utils.boxCompare (Spec.coarsePlayerBox tRex)
                    (Spec.coarseObstacleBox obstacle) = false).
  { apply not_true_is_false; intros Hov.
    apply boxCompare_true_iff in Hov; simpl in Hov. lia. }
  rewrite checkForCollision_result, checkForCollision_comparisons, Hmiss.
  split; reflexivity.
Qed.

(** The cactus is still 306 pixels beyond the T-rex's right inset edge. *)
Lemma checkForCollision_separated_sprites_witness :
  result (Utils.checkForCollision Sample.runner Sample.trexBoxes
            (Sample.cactusAt 400) Sample.tRex false) = None.
Proof.
  apply (checkForCollision_separated_sprites Sample.runner Sample.trexBoxes
           (Sample.cactusAt 400) Sample.tRex false).
  left; simpl; lia.
Defined.

(** ** Rounding to the nearest double *)

Section Pow2.

Lemma two_nonzero : ~ (2 == 0)%Q.
Proof. discriminate. Qed.

Lemma pow2_pos (e : Z) : (0 < Double.pow2 e)%Q.
Proof. apply Qpower_0_lt. reflexivity. Qed.

Lemma pow2_add (a b : Z) :
  (Double.pow2 (a + b) == Double.pow2 a * Double.pow2 b)%Q.
Proof. apply Qpower_plus. exact two_nonzero. Qed.

Lemma pow2_le (a b : Z) : a <= b -> (Double.pow2 a <= Double.pow2 b)%Q.
Proof. intros H. apply Qpower_le_compat_l; [exact H | discriminate]. Qed.

Lemma pow2_lt (a b : Z) : a < b -> (Double.pow2 a < Double.pow2 b)%Q.
Proof. intros H. apply Qpower_lt_compat_l; [exact H | reflexivity]. Qed.

Lemma pow2_lt_inv (a b : Z) : (Double.pow2 a < Double.pow2 b)%Q -> a < b.
Proof. intros H. apply (Qpower_lt_compat_l_inv 2); [exact H | reflexivity]. Qed.

Lemma pow2_Z (e : Z) : 0 <= e -> (Double.pow2 e == inject_Z (2 ^ e))%Q.
Proof. intros H. symmetry. apply (Zpower_Qpower 2 e H). Qed.

Lemma pow2_succ (e : Z) : (Double.pow2 (e + 1) == 2 * Double.pow2 e)%Q.
Proof. rewrite pow2_add. change (Double.pow2 1) with 2%Q. ring. Qed.

Lemma pow2_pred (e : Z) : (Double.pow2 (e - 1) == Double.pow2 e / 2)%Q.
Proof.
  replace (e - 1) with (e + -1) by ring.
  rewrite pow2_add. change (Double.pow2 (-1)) with (/ 2)%Q. field.
Qed.

End Pow2.

Lemma Zlog2_Q (a : Z) :
  0 < a ->
  (Double.pow2 (Z.log2 a) <= inject_Z a)%Q /\
  (inject_Z a < Double.pow2 (Z.log2 a + 1))%Q.
Proof.
  intros Ha. destruct (Z.log2_spec a Ha) as [Hlo Hhi].
  pose proof (Z.log2_nonneg a) as Hnn.
  rewrite !pow2_Z by lia. rewrite <- Zle_Qle, <- Zlt_Qlt.
  split; [exact Hlo | exact Hhi].
Qed.

Lemma ilog2_spec (x : Q) :
  (0 < x)%Q ->
  (Double.pow2 (Double.ilog2 x) <= x)%Q /\
  (x < Double.pow2 (Double.ilog2 x + 1))%Q.
Proof.
  intros Hx. destruct x as [a b].
  assert (Ha : 0 < a) by (unfold Qlt in Hx; simpl in Hx; lia).
  unfold Double.ilog2. cbn [Qnum Qden].
  destruct (Zlog2_Q a Ha) as [Ha1 Ha2].
  destruct (Zlog2_Q (Z.pos b) (Pos2Z.is_pos b)) as [Hb1 Hb2].
  set (la := Z.log2 a) in *. set (lb := Z.log2 (Z.pos b)) in *.
  assert (Hx' : ((a # b) * inject_Z (Z.pos b) == inject_Z a)%Q).
  { unfold Qeq, Qmult, inject_Z; simpl. lia. }
  rewrite pow2_succ in Ha2, Hb2.
  assert (HE : (Double.pow2 (la - lb) * Double.pow2 lb == Double.pow2 la)%Q).
  { rewrite <- pow2_add. replace (la - lb + lb) with la by ring. reflexivity. }
  pose proof (pow2_pos (la - lb)) as HEp.
  pose proof (pow2_pos lb) as Hlbp.
  pose proof (pow2_pos la) as Hlap.
  set (X := (a # b)%Q) in *. set (B := inject_Z (Z.pos b)) in *.
  set (A := inject_Z a) in *. set (E := Double.pow2 (la - lb)) in *.
  set (P := Double.pow2 la) in *. set (L := Double.pow2 lb) in *.
  assert (Hup : (X < 2 * E)%Q) by nra.
  assert (Hdn : (E / 2 < X)%Q).
  { apply Qlt_shift_div_r; [reflexivity|]. nra. }
  destruct (Qle_bool E X) eqn:Hc.
  - apply Qle_bool_iff in Hc. split; [exact Hc|].
    rewrite pow2_succ. exact Hup.
  - assert (Hlt : (X < E)%Q).
    { apply Qnot_le_lt. intros H. apply Qle_bool_iff in H. congruence. }
    split.
    + rewrite pow2_pred. apply Qlt_le_weak. exact Hdn.
    + replace (la - lb - 1 + 1) with (la - lb) by ring. exact Hlt.
Qed.

Lemma ilog2_unique (x : Q) (e : Z) :
  (Double.pow2 e <= x)%Q -> (x < Double.pow2 (e + 1))%Q ->
  Double.ilog2 x = e.
Proof.
  intros Hlo Hhi.
  assert (Hx : (0 < x)%Q)
    by (apply Qlt_le_trans with (Double.pow2 e); [apply pow2_pos | exact Hlo]).
  destruct (ilog2_spec x Hx) as [Hl Hh].
  assert (H1 : Double.ilog2 x < e + 1).
  { apply pow2_lt_inv. apply Qle_lt_trans with x; assumption. }
  assert (H2 : e < Double.ilog2 x + 1).
  { apply pow2_lt_inv. apply Qle_lt_trans with x; assumption. }
  lia.
Qed.

Lemma ilog2_monotone (x y : Q) :
  (0 < x)%Q -> (x <= y)%Q -> Double.ilog2 x <= Double.ilog2 y.
Proof.
  intros Hx Hxy.
  assert (Hy : (0 < y)%Q) by (apply Qlt_le_trans with x; assumption).
  destruct (ilog2_spec x Hx) as [Hl _].
  destruct (ilog2_spec y Hy) as [_ Hh].
  assert (H : Double.ilog2 x < Double.ilog2 y + 1).
  { apply pow2_lt_inv. apply Qle_lt_trans with x; [exact Hl|].
    apply Qle_lt_trans with y; assumption. }
  lia.
Qed.

Section NearestEven.

Lemma nearestEven_floor (m : Q) :
  Qfloor m <= Double.nearestEven m <= Qfloor m + 1.
Proof.
  unfold Double.nearestEven.
  destruct (m - inject_Z (Qfloor m) ?= 1 # 2)%Q; [|lia|lia].
  destruct (Z.even (Qfloor m)); lia.
Qed.

Lemma floor_fraction (m : Q) :
  (0 <= m - inject_Z (Qfloor m))%Q /\ (m - inject_Z (Qfloor m) < 1)%Q.
Proof.
  pose proof (Qfloor_le m) as Hlo. pose proof (Qlt_floor m) as Hhi.
  rewrite inject_Z_plus in Hhi. change (inject_Z 1) with 1%Q in Hhi.
  split; lra.
Qed.

Lemma nearestEven_close (m : Q) :
  (m - (1 # 2) <= inject_Z (Double.nearestEven m))%Q /\
  (inject_Z (Double.nearestEven m) <= m + (1 # 2))%Q.
Proof.
  destruct (floor_fraction m) as [H0 H1].
  unfold Double.nearestEven.
  destruct (Qcompare_spec (m - inject_Z (Qfloor m)) (1 # 2)) as [He | Hl | Hg].
  - destruct (Z.even (Qfloor m)).
    + split; lra.
    + rewrite inject_Z_plus. change (inject_Z 1) with 1%Q. split; lra.
  - split; lra.
  - rewrite inject_Z_plus. change (inject_Z 1) with 1%Q. split; lra.
Qed.

Lemma nearestEven_comp (m m' : Q) :
  (m == m')%Q -> Double.nearestEven m = Double.nearestEven m'.
Proof.
  intros Heq. unfold Double.nearestEven.
  rewrite (Qfloor_comp m m' Heq).
  assert (Hd : (m - inject_Z (Qfloor m') == m' - inject_Z (Qfloor m'))%Q)
    by (rewrite Heq; reflexivity).
  rewrite (Qcompare_comp _ _ Hd (1 # 2) (1 # 2) (Qeq_refl _)).
  reflexivity.
Qed.

Lemma nearestEven_Z (z : Z) : Double.nearestEven (inject_Z z) = z.
Proof.
  unfold Double.nearestEven. rewrite Qfloor_Z.
  assert (Hd : (inject_Z z - inject_Z z == 0)%Q) by ring.
  rewrite (Qcompare_comp _ _ Hd (1 # 2) (1 # 2) (Qeq_refl _)).
  reflexivity.
Qed.

Lemma nearestEven_monotone (m1 m2 : Q) :
  (m1 <= m2)%Q -> Double.nearestEven m1 <= Double.nearestEven m2.
Proof.
  intros Hle.
  pose proof (Qfloor_resp_le m1 m2 Hle) as Hf.
  pose proof (nearestEven_floor m1) as H1.
  pose proof (nearestEven_floor m2) as H2.
  destruct (Z.eq_dec (Qfloor m1) (Qfloor m2)) as [Heq | Hne]; [|lia].
  unfold Double.nearestEven in *. rewrite <- Heq in *.
  destruct (Qcompare_spec (m1 - inject_Z (Qfloor m1)) (1 # 2))
    as [He1 | Hl1 | Hg1];
  destruct (Qcompare_spec (m2 - inject_Z (Qfloor m1)) (1 # 2))
    as [He2 | Hl2 | Hg2];
  try (destruct (Z.even (Qfloor m1))); try lia; exfalso; lra.
Qed.

End NearestEven.

Section RoundPositive.

Lemma scaled_back (x : Q) (q : Z) :
  (x / Double.pow2 q * Double.pow2 q == x)%Q.
Proof.
  pose proof (pow2_pos q) as Hp. field.
  intros H. rewrite H in Hp. exact (Qlt_irrefl 0 Hp).
Qed.

(** A rounded value does not cross a point of its own grid. *)
Lemma roundPositive_below (x : Q) (g : Z) :
  (x <= inject_Z g * Double.pow2 (Double.ulpExponent x))%Q ->
  (Double.roundPositive x <= inject_Z g * Double.pow2 (Double.ulpExponent x))%Q.
Proof.
  intros H. unfold Double.roundPositive.
  set (q := Double.ulpExponent x) in *.
  pose proof (pow2_pos q) as Hp.
  apply Qmult_le_compat_r; [|apply Qlt_le_weak; exact Hp].
  rewrite <- Zle_Qle.
  rewrite <- (nearestEven_Z g). apply nearestEven_monotone.
  apply Qle_shift_div_r; assumption.
Qed.

Lemma roundPositive_above (x : Q) (g : Z) :
  (inject_Z g * Double.pow2 (Double.ulpExponent x) <= x)%Q ->
  (inject_Z g * Double.pow2 (Double.ulpExponent x) <= Double.roundPositive x)%Q.
Proof.
  intros H. unfold Double.roundPositive.
  set (q := Double.ulpExponent x) in *.
  pose proof (pow2_pos q) as Hp.
  apply Qmult_le_compat_r; [|apply Qlt_le_weak; exact Hp].
  rewrite <- Zle_Qle.
  rewrite <- (nearestEven_Z g) at 1. apply nearestEven_monotone.
  apply Qle_shift_div_l; assumption.
Qed.

(** The rounded value is within half a unit in the last place. *)
Lemma roundPositive_half_ulp (x : Q) :
  (x - Double.pow2 (Double.ulpExponent x) * (1 # 2) <=
   Double.roundPositive x)%Q /\
  (Double.roundPositive x <=
   x + Double.pow2 (Double.ulpExponent x) * (1 # 2))%Q.
Proof.
  unfold Double.roundPositive.
  set (q := Double.ulpExponent x).
  pose proof (pow2_pos q) as Hp.
  pose proof (scaled_back x q) as Hx.
  destruct (nearestEven_close (x / Double.pow2 q)) as [Hlo Hhi].
  set (m := (x / Double.pow2 q)%Q) in *.
  set (N := inject_Z (Double.nearestEven m)) in *.
  set (P := Double.pow2 q) in *.
  split.
  - assert (H : ((m - (1 # 2)) * P <= N * P)%Q)
      by (apply Qmult_le_compat_r; [exact Hlo | lra]).
    assert (E : ((m - (1 # 2)) * P == x - P * (1 # 2))%Q)
      by (rewrite <- Hx; ring).
    rewrite <- E. exact H.
  - assert (H : (N * P <= (m + (1 # 2)) * P)%Q)
      by (apply Qmult_le_compat_r; [exact Hhi | lra]).
    assert (E : ((m + (1 # 2)) * P == x + P * (1 # 2))%Q)
      by (rewrite <- Hx; ring).
    rewrite <- E. exact H.
Qed.

Lemma ulpExponent_monotone (x y : Q) :
  (0 < x)%Q -> (x <= y)%Q -> Double.ulpExponent x <= Double.ulpExponent y.
Proof.
  intros Hx Hxy. unfold Double.ulpExponent.
  pose proof (ilog2_monotone x y Hx Hxy). lia.
Qed.

Lemma roundPositive_monotone (x y : Q) :
  (0 < x)%Q -> (x <= y)%Q ->
  (Double.roundPositive x <= Double.roundPositive y)%Q.
Proof.
  intros Hx Hxy.
  assert (Hy : (0 < y)%Q) by (apply Qlt_le_trans with x; assumption).
  pose proof (ulpExponent_monotone x y Hx Hxy) as Hq.
  destruct (Z.eq_dec (Double.ulpExponent x) (Double.ulpExponent y))
    as [Heq | Hne].
  - unfold Double.roundPositive. rewrite Heq.
    set (q := Double.ulpExponent y).
    pose proof (pow2_pos q) as Hp.
    apply Qmult_le_compat_r; [|lra].
    rewrite <- Zle_Qle. apply nearestEven_monotone.
    apply Qmult_le_compat_r; [exact Hxy|].
    apply Qlt_le_weak. apply Qinv_lt_0_compat. exact Hp.
  - assert (Hlt : Double.ulpExponent x < Double.ulpExponent y) by lia.
    unfold Double.ulpExponent in Hlt.
    set (ex := Double.ilog2 x) in *. set (ey := Double.ilog2 y) in *.
    assert (Hey : -1022 < ey) by lia.
    assert (Hexy : ex + 1 <= ey) by lia.
    destruct (ilog2_spec x Hx) as [_ Hxh]. fold ex in Hxh.
    destruct (ilog2_spec y Hy) as [Hyl _]. fold ey in Hyl.
    apply Qle_trans with (Double.pow2 ey).
    + (* x rounds to at most 2^ey, a point of its grid *)
      assert (Hd : 0 <= ey - Double.ulpExponent x)
        by (unfold Double.ulpExponent; fold ex; lia).
      assert (Hgrid : (Double.pow2 ey ==
                       inject_Z (2 ^ (ey - Double.ulpExponent x)) *
                       Double.pow2 (Double.ulpExponent x))%Q).
      { rewrite <- pow2_Z by exact Hd. rewrite <- pow2_add.
        replace (ey - Double.ulpExponent x + Double.ulpExponent x)
          with ey by ring. reflexivity. }
      rewrite Hgrid. apply roundPositive_below. rewrite <- Hgrid.
      apply Qle_trans with (Double.pow2 (ex + 1));
        [apply Qlt_le_weak; exact Hxh | apply pow2_le; exact Hexy].
    + assert (Hqy : Double.ulpExponent y = ey - 52)
        by (unfold Double.ulpExponent; fold ey; lia).
      assert (Hgrid : (Double.pow2 ey ==
                       inject_Z (2 ^ 52) *
                       Double.pow2 (Double.ulpExponent y))%Q).
      { rewrite <- pow2_Z by lia. rewrite <- pow2_add, Hqy.
        replace (52 + (ey - 52)) with ey by ring. reflexivity. }
      rewrite Hgrid. apply roundPositive_above. rewrite <- Hgrid.
      exact Hyl.
Qed.

Lemma roundPositive_nonneg (x : Q) :
  (0 <= x)%Q -> (0 <= Double.roundPositive x)%Q.
Proof.
  intros Hx.
  assert (H0 : (0 == inject_Z 0 * Double.pow2 (Double.ulpExponent x))%Q)
    by (change (inject_Z 0) with 0%Q; ring).
  rewrite H0 at 1. apply roundPositive_above. rewrite <- H0. exact Hx.
Qed.

End RoundPositive.

Section Round.

Lemma round_zero (x : Q) : (x == 0)%Q -> Double.round x = 0%Q.
Proof.
  intros H. unfold Double.round.
  destruct (Qcompare_spec x 0); [reflexivity | exfalso; lra | exfalso; lra].
Qed.

Lemma round_pos (x : Q) : (0 < x)%Q -> Double.round x = Double.roundPositive x.
Proof.
  intros H. unfold Double.round.
  destruct (Qcompare_spec x 0); [exfalso; lra | exfalso; lra | reflexivity].
Qed.

Lemma round_neg (x : Q) :
  (x < 0)%Q -> Double.round x = (- Double.roundPositive (- x))%Q.
Proof.
  intros H. unfold Double.round.
  destruct (Qcompare_spec x 0); [exfalso; lra | reflexivity | exfalso; lra].
Qed.

Lemma round_nonneg (x : Q) : (0 <= x)%Q -> (0 <= Double.round x)%Q.
Proof.
  intros Hx. destruct (Qlt_le_dec 0 x) as [Hp | Hz].
  - rewrite (round_pos x Hp). apply roundPositive_nonneg; exact Hx.
  - rewrite (round_zero x) by lra. lra.
Qed.

Lemma round_nonpos (x : Q) : (x <= 0)%Q -> (Double.round x <= 0)%Q.
Proof.
  intros Hx. destruct (Qlt_le_dec x 0) as [Hn | Hz].
  - rewrite (round_neg x Hn).
    pose proof (roundPositive_nonneg (- x)) as H.
    assert (0 <= - x)%Q by lra. specialize (H H0). lra.
  - rewrite (round_zero x) by lra. lra.
Qed.

(** Rounding keeps the order. *)
Lemma round_monotone (x y : Q) :
  (x <= y)%Q -> (Double.round x <= Double.round y)%Q.
Proof.
  intros Hxy.
  destruct (Qlt_le_dec 0 x) as [Hxp | Hxn].
  - assert (Hyp : (0 < y)%Q) by lra.
    rewrite (round_pos x Hxp), (round_pos y Hyp).
    apply roundPositive_monotone; assumption.
  - destruct (Qlt_le_dec y 0) as [Hyn | Hyp].
    + assert (Hxn' : (x < 0)%Q) by lra.
      rewrite (round_neg x Hxn'), (round_neg y Hyn).
      assert (H : (Double.roundPositive (- y) <= Double.roundPositive (- x))%Q)
        by (apply roundPositive_monotone; lra).
      lra.
    + pose proof (round_nonpos x Hxn). pose proof (round_nonneg y Hyp). lra.
Qed.

End Round.

Section Extensionality.

Lemma ilog2_comp (x x' : Q) :
  (0 < x)%Q -> (x == x')%Q -> Double.ilog2 x = Double.ilog2 x'.
Proof.
  intros Hx Heq.
  assert (Hx' : (0 < x')%Q) by (rewrite <- Heq; exact Hx).
  destruct (ilog2_spec x' Hx') as [Hl Hh].
  apply ilog2_unique; rewrite Heq; assumption.
Qed.

Lemma roundPositive_comp (x x' : Q) :
  (0 < x)%Q -> (x == x')%Q ->
  (Double.roundPositive x == Double.roundPositive x')%Q.
Proof.
  intros Hx Heq. unfold Double.roundPositive, Double.ulpExponent.
  rewrite (ilog2_comp x x' Hx Heq).
  set (q := Z.max (Double.ilog2 x') (-1022) - 52).
  assert (Hm : (x / Double.pow2 q == x' / Double.pow2 q)%Q)
    by (rewrite Heq; reflexivity).
  rewrite (nearestEven_comp _ _ Hm). reflexivity.
Qed.

Lemma round_comp (x x' : Q) :
  (x == x')%Q -> (Double.round x == Double.round x')%Q.
Proof.
  intros Heq.
  destruct (Q_dec x 0) as [[Hn | Hp] | Hz].
  - assert (Hn' : (x' < 0)%Q) by (rewrite <- Heq; exact Hn).
    rewrite (round_neg x Hn), (round_neg x' Hn').
    apply Qopp_comp. apply roundPositive_comp; [lra | rewrite Heq; reflexivity].
  - assert (Hp' : (0 < x')%Q) by (rewrite <- Heq; exact Hp).
    rewrite (round_pos x Hp), (round_pos x' Hp').
    apply roundPositive_comp; assumption.
  - rewrite (round_zero x Hz), (round_zero x') by (rewrite <- Heq; exact Hz).
    reflexivity.
Qed.

End Extensionality.

Section Exactness.

(** Integers below 2^53 scaled by a power of two down to 2^-1074 are
    doubles: rounding leaves them as they are. *)
Lemma roundPositive_exact (z s : Z) :
  0 < z < 2 ^ 53 -> -1074 <= s ->
  (Double.roundPositive (inject_Z z * Double.pow2 s) ==
   inject_Z z * Double.pow2 s)%Q.
Proof.
  intros [Hz0 Hz1] Hs.
  set (x := (inject_Z z * Double.pow2 s)%Q).
  pose proof (pow2_pos s) as Hps.
  destruct (Zlog2_Q z Hz0) as [Hl Hh].
  assert (Hlog : Z.log2 z < 53) by (apply Z.log2_lt_pow2; lia).
  pose proof (Z.log2_nonneg z) as Hlog0.
  assert (He : Double.ilog2 x = Z.log2 z + s).
  { apply ilog2_unique; unfold x.
    - rewrite pow2_add. apply Qmult_le_compat_r; [exact Hl | lra].
    - replace (Z.log2 z + s + 1) with (Z.log2 z + 1 + s) by ring.
      rewrite pow2_add. apply Qmult_lt_compat_r; [exact Hps | exact Hh]. }
  unfold Double.roundPositive, Double.ulpExponent. rewrite He.
  set (q := Z.max (Z.log2 z + s) (-1022) - 52).
  assert (Hd : 0 <= s - q) by (unfold q; lia).
  pose proof (pow2_pos q) as Hpq.
  assert (Hs' : (Double.pow2 s == inject_Z (2 ^ (s - q)) * Double.pow2 q)%Q).
  { rewrite <- pow2_Z by exact Hd. rewrite <- pow2_add.
    replace (s - q + q) with s by ring. reflexivity. }
  assert (Hm : (x / Double.pow2 q == inject_Z (z * 2 ^ (s - q)))%Q).
  { unfold x. rewrite Hs', inject_Z_mult. field.
    intros H. rewrite H in Hpq. exact (Qlt_irrefl 0 Hpq). }
  rewrite (nearestEven_comp _ _ Hm), nearestEven_Z.
  unfold x. rewrite Hs', inject_Z_mult. ring.
Qed.

Lemma round_exact (z s : Z) :
  Z.abs z < 2 ^ 53 -> -1074 <= s ->
  (Double.round (inject_Z z * Double.pow2 s) ==
   inject_Z z * Double.pow2 s)%Q.
Proof.
  intros Hz Hs.
  pose proof (pow2_pos s) as Hps.
  destruct (Z.lt_trichotomy z 0) as [Hn | [H0 | Hp]].
  - assert (Hx : (inject_Z z * Double.pow2 s < 0)%Q).
    { assert (inject_Z z < 0)%Q
        by (change 0%Q with (inject_Z 0); rewrite <- Zlt_Qlt; exact Hn).
      nra. }
    rewrite (round_neg _ Hx).
    assert (Heq : (- (inject_Z z * Double.pow2 s) ==
                   inject_Z (- z) * Double.pow2 s)%Q)
      by (rewrite inject_Z_opp; ring).
    assert (Hpos : (0 < - (inject_Z z * Double.pow2 s))%Q) by lra.
    rewrite (roundPositive_comp _ _ Hpos Heq).
    rewrite roundPositive_exact by (try lia; exact Hs).
    rewrite inject_Z_opp. ring.
  - subst z. rewrite round_zero by (change (inject_Z 0) with 0%Q; ring).
    change (inject_Z 0) with 0%Q. ring.
  - assert (Hx : (0 < inject_Z z * Double.pow2 s)%Q).
    { assert (0 < inject_Z z)%Q
        by (change 0%Q with (inject_Z 0); rewrite <- Zlt_Qlt; exact Hp).
      nra. }
    rewrite (round_pos _ Hx). apply roundPositive_exact; [lia | exact Hs].
Qed.

Lemma round_exact_Z (z : Z) :
  Z.abs z < 2 ^ 53 -> (Double.round (inject_Z z) == inject_Z z)%Q.
Proof.
  intros Hz.
  assert (Heq : (inject_Z z == inject_Z z * Double.pow2 0)%Q)
    by (change (Double.pow2 0) with 1%Q; ring).
  rewrite (round_comp _ _ Heq) at 1.
  rewrite round_exact by (try exact Hz; lia).
  symmetry; exact Heq.
Qed.

End Exactness.

Section Accuracy.

(** In the normal range the rounding error is at most 2^-53 of the
    value. *)
Lemma round_relative_error (x : Q) :
  (Double.pow2 (-1022) <= x)%Q ->
  (Double.round x <= x + x * Double.pow2 (-53))%Q /\
  (x - x * Double.pow2 (-53) <= Double.round x)%Q.
Proof.
  intros Hn.
  assert (Hx : (0 < x)%Q)
    by (apply Qlt_le_trans with (Double.pow2 (-1022));
        [apply pow2_pos | exact Hn]).
  rewrite (round_pos x Hx).
  destruct (ilog2_spec x Hx) as [Hl Hh].
  assert (He : -1022 <= Double.ilog2 x).
  { assert (H : -1022 < Double.ilog2 x + 1)
      by (apply pow2_lt_inv; apply Qle_lt_trans with x; assumption).
    lia. }
  destruct (roundPositive_half_ulp x) as [Hlo Hhi].
  assert (Hq : Double.ulpExponent x = Double.ilog2 x + -52)
    by (unfold Double.ulpExponent; lia).
  rewrite Hq, pow2_add in Hlo, Hhi.
  change (Double.pow2 (-52)) with (1 # 4503599627370496)%Q in Hlo, Hhi.
  change (Double.pow2 (-53)) with (1 # 9007199254740992)%Q.
  set (E := Double.pow2 (Double.ilog2 x)) in *.
  set (R := Double.roundPositive x) in *.
  clearbody E R. clear Hn Hh He Hq.
  split; lra.
Qed.

(** A double below 1 is at most 1 - 2^-53. *)
Lemma representable_below_one (r : Q) :
  (Double.round r == r)%Q -> (r < 1)%Q ->
  (r <= 1 - Double.pow2 (-53))%Q.
Proof.
  intros Hrep Hlt.
  change (Double.pow2 (-53)) with (1 # 9007199254740992)%Q.
  destruct (Qlt_le_dec 0 r) as [Hp | Hn]; [|lra].
  destruct (ilog2_spec r Hp) as [Hl Hh].
  assert (He : Double.ilog2 r < 0).
  { apply pow2_lt_inv. change (Double.pow2 0) with 1%Q.
    apply Qle_lt_trans with r; assumption. }
  destruct (Z.eq_dec (Double.ilog2 r) (-1)) as [Heq | Hne].
  - rewrite (round_pos r Hp) in Hrep.
    unfold Double.roundPositive, Double.ulpExponent in Hrep.
    rewrite Heq in Hrep.
    change (Z.max (-1) (-1022) - 52) with (-53) in Hrep.
    change (Double.pow2 (-53)) with (1 # 9007199254740992)%Q in Hrep.
    set (M := Double.nearestEven (r / (1 # 9007199254740992))) in *.
    assert (HM : (inject_Z M < inject_Z 9007199254740992)%Q)
      by (change (inject_Z 9007199254740992) with (9007199254740992 # 1)%Q;
          lra).
    rewrite <- Zlt_Qlt in HM.
    assert (HM' : (inject_Z M <= inject_Z 9007199254740991)%Q)
      by (rewrite <- Zle_Qle; lia).
    change (inject_Z 9007199254740991) with (9007199254740991 # 1)%Q in HM'.
    lra.
  - assert (Hh' : (r < Double.pow2 (-1))%Q).
    { apply Qlt_le_trans with (Double.pow2 (Double.ilog2 r + 1));
        [exact Hh | apply pow2_le; lia]. }
    change (Double.pow2 (-1)) with (1 # 2)%Q in Hh'. lra.
Qed.

End Accuracy.

(** ** Properties of [getRandomNum] *)

Lemma Qfloor_between (y : Q) (j : Z) :
  (inject_Z j <= y)%Q -> (y < inject_Z (j + 1))%Q -> Qfloor y = j.
Proof.
  intros Hlo Hhi.
  assert (H1 : j <= Qfloor y)
    by (rewrite <- (Qfloor_Z j); apply Qfloor_resp_le; exact Hlo).
  assert (H2 : (inject_Z (Qfloor y) < inject_Z (j + 1))%Q)
    by (apply Qle_lt_trans with y; [apply Qfloor_le | exact Hhi]).
  rewrite <- Zlt_Qlt in H2. lia.
Qed.

Lemma pow2_small : (Double.pow2 (-1022) <= 1 # 2)%Q.
Proof.
  change (1 # 2)%Q with (Double.pow2 (-1)). apply pow2_le. lia.
Qed.

(** X12.  For [min <= max], both within 2^52 of zero, and a double
    [Math.random()] value in [0, 1), the result is an integer between
    [min] and [max], both included: rounding the product never reaches
    [max + 1]. *)
Theorem getRandomNum_in_range (random : Q) (min max : Z) :
  (Double.round random == random)%Q ->
  (0 <= random)%Q -> (random < 1)%Q ->
  - 2 ^ 52 <= min -> max < 2 ^ 52 -> min <= max ->
  min <= Utils.getRandomNum random min max <= max.
Proof.
  intros Hrep Hlo Hhi Hmin Hmax Hmm. unfold Utils.getRandomNum.
  set (n := max - min + 1).
  assert (Hn : (1 <= inject_Z n)%Q)
    by (change 1%Q with (inject_Z 1); rewrite <- Zle_Qle; unfold n; lia).
  pose proof (representable_below_one random Hrep Hhi) as Hr.
  change (Double.pow2 (-53)) with (1 # 9007199254740992)%Q in Hr.
  set (x := (random * inject_Z n)%Q).
  set (y := (inject_Z n * (1 - (1 # 9007199254740992)))%Q).
  assert (Hx0 : (0 <= x)%Q) by (unfold x; nra).
  assert (Hxy : (x <= y)%Q) by (unfold x, y; nra).
  assert (Hy : (Double.pow2 (-1022) <= y)%Q).
  { apply Qle_trans with (1 # 2)%Q; [apply pow2_small | unfold y; lra]. }
  destruct (round_relative_error y Hy) as [Hrel _].
  change (Double.pow2 (-53)) with (1 # 9007199254740992)%Q in Hrel.
  pose proof (round_monotone x y Hxy) as Hmon.
  pose proof (round_nonneg x Hx0) as Hnn.
  assert (Hlt : (Double.round x < inject_Z n)%Q).
  { unfold y in Hrel, Hmon. set (N := inject_Z n) in *.
    set (R := Double.round x) in *.
    set (S := Double.round (N * (1 - (1 # 9007199254740992)))) in *.
    clearbody R S N. clear - Hn Hrel Hmon. lra. }
  assert (H0 : 0 <= Qfloor (Double.round x))
    by (change 0 with (Qfloor 0); apply Qfloor_resp_le; exact Hnn).
  assert (H1 : (inject_Z (Qfloor (Double.round x)) < inject_Z n)%Q)
    by (apply Qle_lt_trans with (Double.round x);
        [apply Qfloor_le | exact Hlt]).
  rewrite <- Zlt_Qlt in H1. unfold n in *. lia.
Qed.

(** The double 8977275004725241 / 2^53, just below 300/301: the exact
    product with 301 is below 300, the rounded product is 300. *)
Lemma getRandomNum_in_range_witness :
  Utils.getRandomNum (8977275004725241 # 9007199254740992) 100 400 = 400 /\
  100 <= Utils.getRandomNum (8977275004725241 # 9007199254740992) 100 400
      <= 400.
Proof.
  split; [vm_compute; reflexivity|].
  apply (getRandomNum_in_range (8977275004725241 # 9007199254740992) 100 400);
    [vm_compute; reflexivity | unfold Qle; simpl; lia | reflexivity
    | lia | lia | lia].
Defined.

(** X14.  With the bounds swapped ([max < min]) the result lies between
    [max + 1] and [min]: it never goes below [max + 1], so [max] itself is
    never returned. *)
Theorem getRandomNum_swapped_bounds (random : Q) (min max : Z) :
  (0 <= random)%Q -> (random < 1)%Q ->
  - 2 ^ 52 <= max -> min < 2 ^ 52 -> max < min ->
  max + 1 <= Utils.getRandomNum random min max <= min.
Proof.
  intros Hlo Hhi Hmax Hmin Hmm. unfold Utils.getRandomNum.
  set (n := max - min + 1).
  assert (Hn : (inject_Z n <= 0)%Q)
    by (change 0%Q with (inject_Z 0); rewrite <- Zle_Qle; unfold n; lia).
  set (x := (random * inject_Z n)%Q).
  assert (Hx0 : (x <= 0)%Q) by (unfold x; nra).
  assert (Hxn : (inject_Z n <= x)%Q) by (unfold x; nra).
  pose proof (round_nonpos x Hx0) as Hup.
  pose proof (round_monotone _ _ Hxn) as Hdn.
  rewrite round_exact_Z in Hdn by (unfold n; lia).
  assert (H0 : Qfloor (Double.round x) <= 0)
    by (change 0 with (Qfloor 0); apply Qfloor_resp_le; exact Hup).
  assert (H1 : n <= Qfloor (Double.round x))
    by (rewrite <- (Qfloor_Z n); apply Qfloor_resp_le; exact Hdn).
  unfold n in *. lia.
Qed.

Lemma getRandomNum_swapped_bounds_witness :
  3 + 1 <= Utils.getRandomNum (1 # 2) 5 3 <= 5.
Proof.
  apply (getRandomNum_swapped_bounds (1 # 2) 5 3);
    [unfold Qle; simpl; lia | reflexivity | lia | lia | lia].
Defined.

(** X15.  For [min <= max] the result grows with the random value, and
    the random value 0 gives [min]. *)
Theorem getRandomNum_monotone (r1 r2 : Q) (min max : Z) :
  - 2 ^ 52 <= min -> max < 2 ^ 52 -> min <= max -> (r1 <= r2)%Q ->
  Utils.getRandomNum r1 min max <= Utils.getRandomNum r2 min max /\
  Utils.getRandomNum 0 min max = min.
Proof.
  intros Hmin Hmax Hmm Hr. unfold Utils.getRandomNum.
  assert (Hn : (0 <= inject_Z (max - min + 1))%Q)
    by (change 0%Q with (inject_Z 0); rewrite <- Zle_Qle; lia).
  split.
  - apply Z.add_le_mono_r. apply Qfloor_resp_le. apply round_monotone.
    apply Qmult_le_compat_r; assumption.
  - rewrite round_zero by ring. reflexivity.
Qed.

Lemma getRandomNum_monotone_witness :
  Utils.getRandomNum (1 # 4) 100 400 <= Utils.getRandomNum (3 # 4) 100 400.
Proof.
  apply (getRandomNum_monotone (1 # 4) (3 # 4) 100 400);
    [lia | lia | lia | unfold Qle; simpl; lia].
Defined.

(** X13.  Every integer [k] of a range of at most 2^51 values is produced
    by some double in [0, 1): the multiple of 2^-53 at or just above
    (k - min + 1/2) / (max - min + 1) is such a double. *)
Theorem getRandomNum_reaches_every_value (min max k : Z) :
  - 2 ^ 52 <= min -> max < 2 ^ 52 -> max - min + 1 <= 2 ^ 51 ->
  min <= k <= max ->
  let random := Observe.randomFor min max k in
  (Double.round random == random)%Q /\
  (0 <= random)%Q /\ (random < 1)%Q /\
  Utils.getRandomNum random min max = k.
Proof.
  intros Hmin Hmax Hsmall Hk random.
  set (n := max - min + 1) in *. set (j := k - min).
  assert (Hj : 0 <= j < n) by (unfold j, n; lia).
  assert (HnQ : (1 <= inject_Z n)%Q)
    by (change 1%Q with (inject_Z 1); rewrite <- Zle_Qle; lia).
  assert (HnU : (inject_Z n <= inject_Z (2 ^ 51))%Q)
    by (rewrite <- Zle_Qle; exact Hsmall).
  change (inject_Z (2 ^ 51)) with (2251799813685248 # 1)%Q in HnU.
  assert (Hnz : ~ (inject_Z n == 0)%Q) by lra.
  set (v := (inject_Z ((2 * j + 1) * 2 ^ 52) / inject_Z n)%Q).
  set (K := Qceiling v).
  assert (Hrandom : random = (inject_Z K * Double.pow2 (-53))%Q)
    by reflexivity.
  assert (Hvn : (v * inject_Z n == inject_Z ((2 * j + 1) * 2 ^ 52))%Q)
    by (unfold v; field; exact Hnz).
  rewrite inject_Z_mult, inject_Z_plus, inject_Z_mult in Hvn.
  change (inject_Z (2 ^ 52)) with (4503599627370496 # 1)%Q in Hvn.
  change (inject_Z 2) with 2%Q in Hvn. change (inject_Z 1) with 1%Q in Hvn.
  assert (HjQ0 : (0 <= inject_Z j)%Q)
    by (change 0%Q with (inject_Z 0); rewrite <- Zle_Qle; lia).
  assert (HjQ1 : (inject_Z j + 1 <= inject_Z n)%Q).
  { change 1%Q with (inject_Z 1). rewrite <- inject_Z_plus, <- Zle_Qle. lia. }
  pose proof (Qle_ceiling v) as HK1. fold K in HK1.
  pose proof (Qceiling_lt v) as HK2. fold K in HK2.
  replace (K - 1) with (K + -1) in HK2 by ring.
  rewrite inject_Z_plus in HK2. change (inject_Z (-1)) with (-1 # 1)%Q in HK2.
  set (KQ := inject_Z K) in *. set (N := inject_Z n) in *.
  set (J := inject_Z j) in *.
  (* bounds on v *)
  assert (Hv0 : (0 < v)%Q).
  { apply Qnot_le_lt. intros Hle. clearbody v N J. nra. }
  assert (Hv1 : (v <= (9007199254740992 # 1) - 2)%Q).
  { apply Qnot_lt_le. intros Hlt. clearbody v N J. nra. }
  assert (HKpos : 0 < K).
  { assert (H : (inject_Z 0 < KQ)%Q) by (change (inject_Z 0) with 0%Q; lra).
    unfold KQ in H. rewrite <- Zlt_Qlt in H. exact H. }
  assert (HKlt : K < 2 ^ 53 - 1).
  { assert (H : (KQ < inject_Z (2 ^ 53 - 1))%Q)
      by (change (inject_Z (2 ^ 53 - 1)) with (9007199254740991 # 1)%Q; lra).
    unfold KQ in H. rewrite <- Zlt_Qlt in H. exact H. }
  assert (Hrep : (Double.round random == random)%Q).
  { rewrite Hrandom. apply round_exact; lia. }
  assert (Hr0 : (0 <= random)%Q).
  { rewrite Hrandom. fold KQ.
    change (Double.pow2 (-53)) with (1 # 9007199254740992)%Q. lra. }
  assert (Hr1 : (random < 1)%Q).
  { rewrite Hrandom. fold KQ.
    change (Double.pow2 (-53)) with (1 # 9007199254740992)%Q. lra. }
  split; [exact Hrep|]. split; [exact Hr0|]. split; [exact Hr1|].
  unfold Utils.getRandomNum. fold n. fold N.
  assert (Hj1 : Z.abs (2 * j + 1) < 2 ^ 53) by (clear - Hj Hsmall; lia).
  assert (Hj2 : Z.abs (4 * j + 3) < 2 ^ 53) by (clear - Hj Hsmall; lia).
  assert (Hgoal : Qfloor (Double.round (random * N)) = j).
  { apply Qfloor_between.
    - (* j <= j + 1/2 = round (j + 1/2) <= round (random * n) *)
      assert (Hhalf : (inject_Z (2 * j + 1) * Double.pow2 (-1) <= random * N)%Q).
      { rewrite Hrandom. fold KQ.
        rewrite inject_Z_plus, inject_Z_mult. fold J.
        change (inject_Z 2) with 2%Q. change (inject_Z 1) with 1%Q.
        change (Double.pow2 (-53)) with (1 # 9007199254740992)%Q.
        change (Double.pow2 (-1)) with (1 # 2)%Q.
        clearbody v N J KQ. nra. }
      pose proof (round_monotone _ _ Hhalf) as Hm.
      rewrite round_exact in Hm by (first [exact Hj1 | (clear - Hj; lia)]).
      rewrite inject_Z_plus, inject_Z_mult in Hm. fold J in Hm.
      change (inject_Z 2) with 2%Q in Hm. change (inject_Z 1) with 1%Q in Hm.
      change (Double.pow2 (-1)) with (1 # 2)%Q in Hm.
      fold J. set (R := Double.round (random * N)) in *.
      clearbody R J. clear - Hm. lra.
    - assert (Hq : (random * N <= inject_Z (4 * j + 3) * Double.pow2 (-2))%Q).
      { rewrite Hrandom. fold KQ.
        rewrite inject_Z_plus, inject_Z_mult. fold J.
        change (inject_Z 4) with 4%Q. change (inject_Z 3) with 3%Q.
        change (Double.pow2 (-53)) with (1 # 9007199254740992)%Q.
        change (Double.pow2 (-2)) with (1 # 4)%Q.
        clearbody v N J KQ. nra. }
      pose proof (round_monotone _ _ Hq) as Hm.
      rewrite round_exact in Hm by (first [exact Hj2 | (clear - Hj; lia)]).
      rewrite inject_Z_plus, inject_Z_mult in Hm. fold J in Hm.
      change (inject_Z 4) with 4%Q in Hm. change (inject_Z 3) with 3%Q in Hm.
      change (Double.pow2 (-2)) with (1 # 4)%Q in Hm.
      rewrite inject_Z_plus. fold J. change (inject_Z 1) with 1%Q.
      set (R := Double.round (random * N)) in *.
      clearbody R J. clear - Hm. lra. }
  rewrite Hgoal. unfold j. lia.
Qed.

(** The value 153 of the range 100..400, which the quotient 53/301 itself
    misses. *)
Lemma getRandomNum_reaches_every_value_witness :
  Utils.getRandomNum (Observe.randomFor 100 400 153) 100 400 = 153.
Proof.
  assert (H : 100 <= 153 <= 400) by lia.
  assert (H1 : - 2 ^ 52 <= 100) by lia.
  assert (H2 : 400 < 2 ^ 52) by lia.
  assert (H3 : 400 - 100 + 1 <= 2 ^ 51) by lia.
  exact (proj2 (proj2 (proj2
           (getRandomNum_reaches_every_value 100 400 153 H1 H2 H3 H)))).
Defined.

(** ** Further properties of clouds *)

Lemma Cloud_updates_gone (speeds : list Q) (c : Cloud.t) :
  Cloud.remove c = true -> Cloud.updates speeds c = ((c, Normal tt), []).
Proof.
  intros Hgone. induction speeds as [|speed later IH]; simpl.
  - reflexivity.
  - rewrite (Cloud_update_gone speed c Hgone). simpl. rewrite IH.
    reflexivity.
Qed.

(** X18.  A removed cloud stays as it is for the rest of its life: any
    further updates return it unchanged and draw nothing. *)
Theorem Cloud_removed_is_final (speeds : list Q) (c : Cloud.t) :
  Cloud.remove c = true ->
  result (Cloud.updates speeds c) = (c, Normal tt) /\
  trace (Cloud.updates speeds c) = [].
Proof.
  intros Hgone. rewrite (Cloud_updates_gone speeds c Hgone).
  split; reflexivity.
Qed.

Lemma Cloud_removed_is_final_witness :
  result (Cloud.updates [5 # 1; -3 # 1; 0 # 1] Sample.goneCloud) =
  (Sample.goneCloud, Normal tt).
Proof.
  exact (proj1 (Cloud_removed_is_final [5 # 1; -3 # 1; 0 # 1]
                  Sample.goneCloud eq_refl)).
Defined.


(** ** Properties of [decodeBase64ToArrayBuffer] *)

Section ByteArrayFacts.

Local Open Scope nat_scope.

Lemma Uint8Array_set_length (bytes : Uint8Array.t) :
  forall i v, List.length (Uint8Array.set bytes i v) = List.length bytes.
Proof.
  induction bytes as [|b rest IH]; intros [|j] v; simpl; auto.
Qed.

Lemma Uint8Array_set_nth (bytes : Uint8Array.t) :
  forall i v j,
    nth j (Uint8Array.set bytes i v) 0%Z =
    if (j =? i) && (i <? List.length bytes)
    then Uint8Array.ToUint8 v
    else nth j bytes 0%Z.
Proof.
  induction bytes as [|b rest IH]; intros i v j.
  - simpl. rewrite andb_false_r. destruct j, i; reflexivity.
  - destruct i as [|i], j as [|j]; simpl; try reflexivity.
    rewrite IH. reflexivity.
Qed.

Variable f : nat -> option Z.

Let fill (m : nat) (bytes : Uint8Array.t) : Uint8Array.t :=
  fold_left (fun s i => Uint8Array.set s i (f i)) (seq 0 m) bytes.

Lemma fill_length (m : nat) (bytes : Uint8Array.t) :
  List.length (fill m bytes) = List.length bytes.
Proof.
  unfold fill. induction m as [|m IH]; [reflexivity|].
  rewrite seq_S, fold_left_app. simpl.
  rewrite Uint8Array_set_length. exact IH.
Qed.

Lemma fill_nth (m : nat) (bytes : Uint8Array.t) (j : nat) :
  nth j (fill m bytes) 0%Z =
  if (j <? m) && (j <? List.length bytes)
  then Uint8Array.ToUint8 (f j)
  else nth j bytes 0%Z.
Proof.
  induction m as [|m IH]; [reflexivity|].
  unfold fill in *. rewrite seq_S, fold_left_app. simpl.
  rewrite Uint8Array_set_nth, IH.
  pose proof (fill_length m bytes) as Hlen. unfold fill in Hlen.
  rewrite Hlen.
  destruct (Nat.eqb_spec j m) as [-> | Hne].
  - rewrite Nat.ltb_irrefl. simpl.
    replace (m <? S m) with true by (symmetry; apply Nat.ltb_lt; lia).
    simpl. destruct (m <? List.length bytes); reflexivity.
  - simpl.
    destruct (Nat.ltb_spec j m) as [Hlt | Hge].
    + replace (j <? S m) with true by (symmetry; apply Nat.ltb_lt; lia).
      reflexivity.
    + replace (j <? S m) with false by (symmetry; apply Nat.ltb_ge; lia).
      reflexivity.
Qed.

End ByteArrayFacts.

Lemma charCodeAt_charCodes (str : string) :
  forall i : nat,
    Uint8Array.ToUint8 (charCodeAt str i) =
    nth i (Observe.charCodes str) 0.
Proof.
  unfold charCodeAt, Observe.charCodes.
  induction str as [|c rest IH]; intros i.
  - destruct i; reflexivity.
  - destruct i as [|i]; simpl.
    + pose proof (Ascii.N_ascii_bounded c) as Hb.
      apply Z.mod_small. lia.
    + apply IH.
Qed.

Lemma charCodes_length (str : string) :
  List.length (Observe.charCodes str) = String.length str.
Proof.
  unfold Observe.charCodes. rewrite length_map.
  induction str as [|c rest IH]; simpl; [reflexivity | now rewrite IH].
Qed.

Lemma charCodes_range (str : string) :
  Forall (fun b => 0 <= b < 256) (Observe.charCodes str).
Proof.
  unfold Observe.charCodes. apply Forall_forall. intros b Hin.
  apply in_map_iff in Hin. destruct Hin as [c [<- _]].
  pose proof (Ascii.N_ascii_bounded c). lia.
Qed.

(** The buffer length the decoder asks for, 3/4 of the input length. *)
Lemma decode_byteLength (L : nat) :
  Z.to_nat (Qfloor (inject_Z (Z.of_nat L) / 4 * 3)) = (3 * L / 4)%nat.
Proof.
  assert (Heq : (inject_Z (Z.of_nat L) / 4 * 3 == (3 * Z.of_nat L) # 4)%Q).
  { unfold Qeq, Qdiv, Qmult, Qinv, inject_Z.
    cbn [Qnum Qden Pos.mul]. lia. }
  rewrite Heq. unfold Qfloor.
  change (Z.pos 4) with (Z.of_nat 4).
  change 3 with (Z.of_nat 3).
  rewrite <- Nat2Z.inj_mul, <- Nat2Z.inj_div.
  apply Nat2Z.id.
Qed.

Lemma decode_loop_covers (len : Q) :
  (Z.to_nat (Qfloor len) <= Z.to_nat (Qceiling len))%nat.
Proof.
  pose proof (Qle_floor_ceiling len) as H. rewrite <- Zle_Qle in H. lia.
Qed.

(** The indices visited by a counting loop are those below the bound. *)
Lemma forUpTo_indices (len : Q) (i : nat) :
  In i (seq 0 (Z.to_nat (Qceiling len))) <->
  (inject_Z (Z.of_nat i) < len)%Q.
Proof.
  rewrite in_seq. split.
  - intros [_ Hlt].
    apply Qle_lt_trans with (inject_Z (Qceiling len - 1));
      [|apply Qceiling_lt].
    rewrite <- Zle_Qle. lia.
  - intros Hlt. split; [lia|].
    assert (H : (inject_Z (Z.of_nat i) < inject_Z (Qceiling len))%Q)
      by (apply Qlt_le_trans with len; [exact Hlt | apply Qle_ceiling]).
    rewrite <- Zlt_Qlt in H. lia.
Qed.

Section DecodeFacts.

Variable atob : string -> option string.

Lemma decode_some (base64String str : string) :
  atob base64String = Some str ->
  exists bytes,
    Utils.decodeBase64ToArrayBuffer atob base64String = Some bytes /\
    List.length bytes = (3 * String.length base64String / 4)%nat /\
    forall j, nth j bytes 0 =
              if (j <? 3 * String.length base64String / 4)%nat
              then nth j (Observe.charCodes str) 0
              else 0.
Proof.
  intros Hatob. unfold Utils.decodeBase64ToArrayBuffer. rewrite Hatob.
  eexists; split; [reflexivity|].
  set (len := (inject_Z (Z.of_nat (String.length base64String)) / 4 * 3)%Q).
  unfold forUpTo, Uint8Array.ofNewArrayBuffer.
  pose proof (decode_byteLength (String.length base64String)) as Hn.
  fold len in Hn.
  pose proof (decode_loop_covers len) as Hcover.
  rewrite Hn in *.
  split.
  - rewrite fill_length. apply repeat_length.
  - intros j. rewrite fill_nth, repeat_length, charCodeAt_charCodes.
    destruct (Nat.ltb_spec j (3 * String.length base64String / 4)) as [Hj | Hj].
    + replace (j <? Z.to_nat (Qceiling len))%nat with true
        by (symmetry; apply Nat.ltb_lt; lia).
      reflexivity.
    + rewrite andb_false_r. apply nth_repeat.
Qed.

End DecodeFacts.

(** X23.  The decoder fails exactly when [atob] throws; otherwise the
    buffer it returns has 3/4 of the input's length, rounded down,
    whatever [atob] decoded. *)
Theorem decodeBase64ToArrayBuffer_length
    (atob : string -> option string) (base64String : string) :
  (Utils.decodeBase64ToArrayBuffer atob base64String = None <->
   atob base64String = None) /\
  (forall bytes,
     Utils.decodeBase64ToArrayBuffer atob base64String = Some bytes ->
     List.length bytes = (3 * String.length base64String / 4)%nat).
Proof.
  destruct (atob base64String) as [str|] eqn:E.
  - destruct (decode_some atob base64String str E) as [bytes [Hb [Hlen _]]].
    rewrite Hb. split.
    + split; discriminate.
    + intros bytes' Heq. inversion Heq; subst. exact Hlen.
  - unfold Utils.decodeBase64ToArrayBuffer. rewrite E.
    split; [tauto | discriminate].
Qed.

Lemma firstn_repeat_le {A : Type} (a : A) (k n : nat) :
  (k <= n)%nat -> firstn k (repeat a n) = repeat a k.
Proof.
  revert n. induction k as [|k IH]; intros n Hle; [reflexivity|].
  destruct n as [|n]; [lia|]. simpl. f_equal. apply IH. lia.
Qed.

Lemma decode_equation
    (atob : string -> option string) (base64String str : string) :
  atob base64String = Some str ->
  Utils.decodeBase64ToArrayBuffer atob base64String =
    Some (firstn (3 * String.length base64String / 4)
            (Observe.charCodes str ++
             repeat 0 (3 * String.length base64String / 4))).
Proof.
  intros Hatob.
  set (n := (3 * String.length base64String / 4)%nat).
  destruct (decode_some atob base64String str Hatob)
    as [bytes [Hb [Hlen Hnth]]].
  fold n in Hlen, Hnth.
  rewrite Hb. f_equal.
  apply nth_ext with (d := 0) (d' := 0).
  - rewrite Hlen, length_firstn, length_app, repeat_length. lia.
  - intros j Hj. rewrite Hlen in Hj.
    rewrite Hnth, nth_firstn.
    replace (j <? n)%nat with true by (symmetry; apply Nat.ltb_lt; lia).
    destruct (Nat.lt_ge_cases j (List.length (Observe.charCodes str)))
      as [Hin | Hout].
    + rewrite app_nth1 by exact Hin. reflexivity.
    + rewrite app_nth2 by exact Hout.
      rewrite nth_repeat. apply nth_overflow; exact Hout.
Qed.

(** X24.  The buffer holds the character codes of the decoded string,
    cut or filled with zero bytes to the buffer's length; every byte is in
    0..255. *)
Theorem decodeBase64ToArrayBuffer_contents
    (atob : string -> option string) (base64String str : string) :
  atob base64String = Some str ->
  let n := (3 * String.length base64String / 4)%nat in
  Utils.decodeBase64ToArrayBuffer atob base64String =
    Some (firstn n (Observe.charCodes str ++ repeat 0 n)) /\
  Forall (fun b => 0 <= b < 256)
         (firstn n (Observe.charCodes str ++ repeat 0 n)).
Proof.
  intros Hatob n.
  split; [exact (decode_equation atob base64String str Hatob)|].
  apply Forall_forall. intros b Hin.
  assert (Hin' : In b (Observe.charCodes str ++ repeat 0 n)).
  { rewrite <- (firstn_skipn n (Observe.charCodes str ++ repeat 0 n)).
    apply in_or_app; left; exact Hin. }
  apply in_app_or in Hin'. destruct Hin' as [Hc | Hz].
  - pose proof (charCodes_range str) as Hr.
    rewrite Forall_forall in Hr. exact (Hr b Hc).
  - apply repeat_spec in Hz. subst b. lia.
Qed.

Lemma decodeBase64ToArrayBuffer_contents_witness :
  Utils.decodeBase64ToArrayBuffer Sample.atob "YWJj" = Some [97; 98; 99].
Proof.
  exact (proj1 (decodeBase64ToArrayBuffer_contents Sample.atob
                  "YWJj" "abc" eq_refl)).
Defined.

(** X25.  When the decoded string is not longer than the buffer, as for
    padded base64, the buffer is the decoded bytes followed by zero bytes
    up to 3/4 of the input length: the padding shows up as trailing
    zeros. *)
Theorem decodeBase64ToArrayBuffer_zero_padding
    (atob : string -> option string) (base64String str : string) :
  atob base64String = Some str ->
  (String.length str <= 3 * String.length base64String / 4)%nat ->
  Utils.decodeBase64ToArrayBuffer atob base64String =
    Some (Observe.charCodes str ++
          repeat 0 (3 * String.length base64String / 4
                    - String.length str)%nat).
Proof.
  intros Hatob Hle.
  rewrite (decode_equation atob base64String str Hatob). f_equal.
  rewrite firstn_app, charCodes_length.
  rewrite firstn_all2 by (rewrite charCodes_length; exact Hle).
  rewrite firstn_repeat_le by lia. reflexivity.
Qed.

(** The input "YQ==" decodes to the one character "a"; the buffer has
    three bytes. *)
Lemma decodeBase64ToArrayBuffer_zero_padding_witness :
  Utils.decodeBase64ToArrayBuffer Sample.atob "YQ==" = Some [97; 0; 0].
Proof.
  apply (decodeBase64ToArrayBuffer_zero_padding Sample.atob "YQ==" "a");
    [reflexivity | simpl; lia].
Defined.

(** ** Moving the scene *)

Lemma boxCompare_same_offsets (a b a' b' : CollisionBox.t) :
  x a' - x b' = x a - x b -> y a' - y b' = y a - y b ->
  width a' = width a -> width b' = width b ->
  height a' = height a -> height b' = height b ->
  Utils.boxCompare a' b' = Utils.boxCompare a b.
Proof.
  intros Hx Hy Hwa Hwb Hha Hhb.
  destruct (Utils.boxCompare a b) eqn:E.
  - apply boxCompare_true_iff in E. apply boxCompare_true_iff. lia.
  - apply not_true_is_false; intros H.
    apply boxCompare_true_iff in H.
    assert (Utils.boxCompare a b = true) as Ht
      by (apply boxCompare_true_iff; lia).
    congruence.
Qed.

Lemma find_map_invariant {A : Type} (p : A -> bool) (f : A -> A)
    (l : list A) :
  (forall a, p (f a) = p a) ->
  find p (map f l) = option_map f (find p l).
Proof.
  intros Hinv. induction l as [|a l IH]; simpl; [reflexivity|].
  rewrite Hinv. destruct (p a); [reflexivity | exact IH].
Qed.

Lemma translatedPairs_moved
    (R : Runner.t) (tbl : Trex.collisionBoxes_t)
    (obstacle : Obstacle.t) (tRex : Trex.t) (dx dy : Z) :
  Spec.translatedPairs R tbl (Observe.movedObstacle dx dy obstacle)
    (Observe.movedTrex dx dy tRex) =
  map (fun pair => (Observe.movedBox dx dy (fst pair),
                    Observe.movedBox dx dy (snd pair)))
      (Spec.translatedPairs R tbl obstacle tRex).
Proof.
  unfold Spec.translatedPairs.
  change (Spec.playerSubBoxes R tbl (Observe.movedTrex dx dy tRex))
    with (Spec.playerSubBoxes R tbl tRex).
  change (Obstacle.collisionBoxes (Observe.movedObstacle dx dy obstacle))
    with (Obstacle.collisionBoxes obstacle).
  induction (Spec.playerSubBoxes R tbl tRex) as [|p ps IH]; simpl;
    [reflexivity|].
  rewrite map_app, IH. f_equal.
  rewrite map_map. apply map_ext. intros o.
  unfold Spec.translate, Observe.movedBox; simpl.
  f_equal; f_equal; lia.
Qed.

(** X26.  The detector sees only relative positions: moving the obstacle
    and the T-rex by the same offset moves the reported boxes by that
    offset and changes nothing else, in particular not whether a
    collision is reported. *)
Theorem checkForCollision_translation_invariant
    (R : Runner.t) (tbl : Trex.collisionBoxes_t)
    (obstacle : Obstacle.t) (tRex : Trex.t) (opt_canvasCtx : bool)
    (dx dy : Z) :
  result (Utils.checkForCollision R tbl
            (Observe.movedObstacle dx dy obstacle)
            (Observe.movedTrex dx dy tRex) opt_canvasCtx) =
  option_map (fun pair => (Observe.movedBox dx dy (fst pair),
                           Observe.movedBox dx dy (snd pair)))
    (result (Utils.checkForCollision R tbl obstacle tRex opt_canvasCtx)).
Proof.
  rewrite !checkForCollision_result.
  rewrite (boxCompare_same_offsets
             (Spec.coarsePlayerBox tRex) (Spec.coarseObstacleBox obstacle)
             (Spec.coarsePlayerBox (Observe.movedTrex dx dy tRex))
             (Spec.coarseObstacleBox (Observe.movedObstacle dx dy obstacle)))
    by (simpl; lia).
  destruct (Utils.boxCompare _ _); [|reflexivity].
  rewrite translatedPairs_moved.
  apply find_map_invariant.
  intros [a b]. unfold Spec.overlapping; simpl.
  apply boxCompare_same_offsets; simpl; lia.
Qed.
